(** * AI-Wrapper: the command sanitizer and the provider layer of
      [parser_engine.go], and the shell that calls them, embedded in Rocq.

    A Go string is modelled as the sequence of runes that [range],
    package [strings] and package [regexp] see when they walk it
    ([gostring] below).  The texts that reach [sanitizeCommand] come out of
    [json.Unmarshal], which only produces valid UTF-8, so nothing is lost
    by working on code points. *)

From Stdlib Require Import Ascii String.
From Stdlib Require Import List NArith ZArith Bool Lia.
Import ListNotations.

(** ** Strings *)

Definition rune := N.
Definition gostring := list rune.

Definition nl : rune := 10%N.          (* '\n' *)
Definition backslash : rune := 92%N.   (* '\\' *)

(** Reading of a Go interpreted string literal: the escapes [\n], [\t] and
    [\\] are replaced by the rune they denote, every other character stands
    for itself. *)
Fixpoint unescape (s : gostring) : gostring :=
  match s with
  | [] => []
  | c :: s' =>
      if (c =? backslash)%N then
        match s' with
        | d :: s'' =>
            if (d =? 110)%N then nl :: unescape s''
            else if (d =? 116)%N then 9%N :: unescape s''
            else if (d =? backslash)%N then backslash :: unescape s''
            else c :: unescape s'
        | [] => [c]
        end
      else c :: unescape s'
  end.

Definition raw_lit (s : string) : gostring :=
  map N_of_ascii (list_ascii_of_string s).

Definition lit (s : string) : gostring := unescape (raw_lit s).

Definition gostring_eqb (a b : gostring) : bool :=
  if list_eq_dec N.eq_dec a b then true else false.

Definition is_empty (s : gostring) : bool :=
  match s with [] => true | _ :: _ => false end.

Module Unicode.

(** [unicode.IsSpace]: the Latin-1 switch, then the White_Space table. *)
Definition IsSpace (r : rune) : bool :=
  if (r <=? 255)%N then
    (r =? 9)%N || (r =? 10)%N || (r =? 11)%N || (r =? 12)%N || (r =? 13)%N
    || (r =? 32)%N || (r =? 133)%N || (r =? 160)%N
  else
    (r =? 5760)%N                                  (* U+1680 *)
    || ((8192 <=? r)%N && (r <=? 8202)%N)          (* U+2000..U+200A *)
    || (r =? 8232)%N || (r =? 8233)%N              (* U+2028, U+2029 *)
    || (r =? 8239)%N                               (* U+202F *)
    || (r =? 8287)%N                               (* U+205F *)
    || (r =? 12288)%N.                             (* U+3000 *)

(** [unicode.ToLower].  ASCII capitals are shifted by 32.  Outside ASCII
    only the two runes whose lower case is an ASCII letter are listed
    (U+0130 to i, U+212A to k); every other rune of the table has a
    non-ASCII image, and since the program only compares lowered text
    with ASCII phrases those entries are left as they are. *)
Definition ToLower (r : rune) : rune :=
  if ((65 <=? r)%N && (r <=? 90)%N) then (r + 32)%N
  else if (r =? 304)%N then 105%N
  else if (r =? 8490)%N then 107%N
  else r.

End Unicode.

Module Strings.

Fixpoint TrimLeftFunc (f : rune -> bool) (s : gostring) : gostring :=
  match s with
  | [] => []
  | c :: s' => if f c then TrimLeftFunc f s' else s
  end.

Definition TrimRightFunc (f : rune -> bool) (s : gostring) : gostring :=
  rev (TrimLeftFunc f (rev s)).

(** [strings.TrimSpace]: all leading and trailing white space, as
    defined by Unicode, removed. *)
Definition TrimSpace (s : gostring) : gostring :=
  TrimRightFunc Unicode.IsSpace (TrimLeftFunc Unicode.IsSpace s).

(** [strings.Split(s, sep)] for a separator of one rune (the program
    only splits on a newline).  The result always has at least one
    element; [Split "" sep] is [[""]]. *)
Fixpoint Split (s : gostring) (sep : rune) : list gostring :=
  match s with
  | [] => [[]]
  | c :: s' =>
      if (c =? sep)%N then [] :: Split s' sep
      else match Split s' sep with
           | l :: ls => (c :: l) :: ls
           | [] => [[c]]
           end
  end.

Definition ToLower (s : gostring) : gostring := map Unicode.ToLower s.

Fixpoint HasPrefix (s p : gostring) {struct p} : bool :=
  match p, s with
  | [], _ => true
  | a :: p', b :: s' => (a =? b)%N && HasPrefix s' p'
  | _ :: _, [] => false
  end.

End Strings.

(** ** Regular expressions

    The part of RE2 syntax the program uses, with the leftmost-first
    (backtracking order) semantics of package [regexp]: of the matches that
    start leftmost, the one a backtracking search finds first. *)

Module Regexp.

(** Single-rune classes. *)
Inductive cls : Type :=
| Any                 (* .     any rune but newline (flag s is off) *)
| Not (c : rune)      (* [^c]  any rune but c, newline included *)
| WhiteSpace          (* \s    [\t\n\f\r ] *)
| Char (c : rune).    (* c *)

Definition cls_match (k : cls) (r : rune) : bool :=
  match k with
  | Any => negb (r =? nl)%N
  | Not c => negb (r =? c)%N
  | WhiteSpace =>
      (r =? 9)%N || (r =? 10)%N || (r =? 12)%N || (r =? 13)%N || (r =? 32)%N
  | Char c => (r =? c)%N
  end.

Inductive regex : Type :=
| Chr (k : cls)
| Str (s : gostring)          (* a literal string *)
| Bol                         (* ^   beginning of text *)
| Seq (a b : regex)
| Alt (a b : regex)           (* a|b   a is preferred *)
| Opt (a : regex)             (* a?    greedy *)
| Star (k : cls)              (* k*    greedy *)
| StarLazy (k : cls)          (* k*?   lazy *)
| Plus (k : cls)              (* k+    greedy *)
| Group (a : regex).          (* (a)   capturing group 1 *)

(** A thread of the search: how many runes of the text are consumed,
    what is left, and what group 1 holds so far. *)
Record thread : Type := Thread {
  pos : nat;
  rest : gostring;
  group1 : gostring
}.

Definition K := thread -> option thread.

Definition orelse (a b : option thread) : option thread :=
  match a with Some _ => a | None => b end.

Fixpoint star_greedy (k : cls) (p : nat) (s g : gostring) (cont : K)
  : option thread :=
  match s with
  | x :: xs =>
      if cls_match k x
      then orelse (star_greedy k (S p) xs g cont) (cont (Thread p s g))
      else cont (Thread p s g)
  | [] => cont (Thread p s g)
  end.

Fixpoint star_lazy (k : cls) (p : nat) (s g : gostring) (cont : K)
  : option thread :=
  orelse (cont (Thread p s g))
    match s with
    | x :: xs => if cls_match k x then star_lazy k (S p) xs g cont else None
    | [] => None
    end.

Definition one (k : cls) (t : thread) (cont : K) : option thread :=
  match rest t with
  | x :: xs =>
      if cls_match k x then cont (Thread (S (pos t)) xs (group1 t)) else None
  | [] => None
  end.

(** [run r t cont]: the first way, in backtracking order, to match [r]
    at thread [t] such that the continuation succeeds as well. *)
Fixpoint run (r : regex) (t : thread) (cont : K) : option thread :=
  match r with
  | Chr k => one k t cont
  | Str s =>
      if Strings.HasPrefix (rest t) s
      then cont (Thread (pos t + length s) (skipn (length s) (rest t))
                        (group1 t))
      else None
  | Bol => if Nat.eqb (pos t) 0 then cont t else None
  | Seq a b => run a t (fun t' => run b t' cont)
  | Alt a b => orelse (run a t cont) (run b t cont)
  | Opt a => orelse (run a t cont) (cont t)
  | Star k => star_greedy k (pos t) (rest t) (group1 t) cont
  | StarLazy k => star_lazy k (pos t) (rest t) (group1 t) cont
  | Plus k =>
      one k t (fun t' => star_greedy k (pos t') (rest t') (group1 t') cont)
  | Group a =>
      run a t (fun t' =>
        cont (Thread (pos t') (rest t')
                     (firstn (pos t' - pos t) (rest t))))
  end.

(** A match that starts at position [p], where [s] is the text from [p]
    on: the matched text and group 1. *)
Definition match_at (r : regex) (p : nat) (s : gostring)
  : option (gostring * gostring) :=
  match run r (Thread p s []) Some with
  | Some t => Some (firstn (pos t - p) s, group1 t)
  | None => None
  end.

(** The leftmost match at or after position [p]. *)
Fixpoint search (r : regex) (p : nat) (s : gostring)
  : option (gostring * gostring) :=
  match match_at r p s with
  | Some m => Some m
  | None =>
      match s with
      | [] => None
      | _ :: s' => search r (S p) s'
      end
  end.

(** [re.FindStringSubmatch(s)] for an expression with one group: nil
    when there is no match, otherwise the match and the text of group 1. *)
Definition FindStringSubmatch (r : regex) (s : gostring) : list gostring :=
  match search r 0 s with
  | Some (whole, g) => [whole; g]
  | None => []
  end.

(** [regexp.MatchString(pattern, s)]. *)
Definition MatchString (r : regex) (s : gostring) : bool :=
  match search r 0 s with Some _ => true | None => false end.

(** [re.ReplaceAllString(src, "")]: every non-overlapping match, found
    left to right, is deleted.  [skip] counts the runes of the current
    match still to drop; an empty match deletes nothing. *)
Fixpoint delete_matches (r : regex) (p skip : nat) (s : gostring)
  : gostring :=
  match s with
  | [] => []
  | c :: s' =>
      match skip with
      | S n => delete_matches r (S p) n s'
      | O =>
          match match_at r p s with
          | Some (whole, _) =>
              match length whole with
              | O => c :: delete_matches r (S p) 0 s'
              | S n => delete_matches r (S p) n s'
              end
          | None => c :: delete_matches r (S p) 0 s'
          end
      end
  end.

Definition ReplaceAllString_empty (r : regex) (src : gostring) : gostring :=
  delete_matches r 0 0 src.

End Regexp.

Import Regexp.

Declare Scope re_scope.
Delimit Scope re_scope with re.
Bind Scope re_scope with regex.
Infix ";;" := Seq (at level 61, right associativity) : re_scope.
Infix "<|>" := Alt (at level 62, right associativity) : re_scope.

(** ** The sanitizer *)

Definition backtick : rune := 96%N.
Definition dollar : rune := 36%N.

(** ["```(?:bash|sh|zsh|shell)?\n?(.*?)\n?```"] *)
Definition backtickRegex : regex :=
  (Str (lit "```") ;;
   Opt (Str (lit "bash") <|> Str (lit "sh") <|> Str (lit "zsh")
        <|> Str (lit "shell")) ;;
   Opt (Chr (Char nl)) ;;
   Group (StarLazy Any) ;;
   Opt (Chr (Char nl)) ;;
   Str (lit "```"))%re.

(** ["`([^`]+)`"] *)
Definition inlineRegex : regex :=
  (Chr (Char backtick) ;; Group (Plus (Not backtick)) ;; Chr (Char backtick))%re.

(** [`^\$|^\s*neri>|^\s*Emiliano>`] *)
Definition promptRegex : regex :=
  ((Bol ;; Chr (Char dollar))
   <|> (Bol ;; Star WhiteSpace ;; Str (lit "neri>"))
   <|> (Bol ;; Star WhiteSpace ;; Str (lit "Emiliano>")))%re.

Definition explanationPatterns : list regex :=
  [ (Bol ;; Str (lit "para"))%re;
    (Bol ;; Str (lit "usa"))%re;
    (Bol ;; Str (lit "este"))%re;
    (Bol ;; Str (lit "el comando"))%re;
    (Bol ;; Str (lit "la respuesta"))%re;
    (Bol ;; Str (lit "you can"))%re;
    (Bol ;; Str (lit "this will"))%re;
    (Bol ;; Str (lit "use"))%re;
    (Bol ;; Str (lit "the command"))%re ].

(** looksLikeExplanation verifica si una linea parece explicacion *)
Definition looksLikeExplanation (line : gostring) : bool :=
  existsb (fun pattern => MatchString pattern (Strings.ToLower line))
          explanationPatterns.

(** The loop of getFirstNonEmptyLine over the lines. *)
Fixpoint firstNonEmpty (lines : list gostring) : gostring :=
  match lines with
  | [] => []
  | line :: more =>
      let line := Strings.TrimSpace line in
      if negb (is_empty line) then line else firstNonEmpty more
  end.

(** getFirstNonEmptyLine obtiene la primera linea no vacia *)
Definition getFirstNonEmptyLine (text : gostring) : gostring :=
  firstNonEmpty (Strings.Split text nl).

(** The loop of case 3: [Some] is a [return] from inside the loop, [None]
    is the loop running to its end. *)
Fixpoint firstCommandLine (lines : list gostring) : option gostring :=
  match lines with
  | [] => None
  | line :: more =>
      let line := Strings.TrimSpace line in
      if negb (is_empty line) && negb (looksLikeExplanation line) then
        let line := ReplaceAllString_empty promptRegex line in
        Some (Strings.TrimSpace line)
      else firstCommandLine more
  end.

(** sanitizeCommand limpia y extrae el comando ejecutable de la respuesta IA *)
Definition sanitizeCommand (raw : gostring) : gostring :=
  let raw := Strings.TrimSpace raw in
  (* Caso 1: bloque de codigo con triple backticks *)
  let matches := FindStringSubmatch backtickRegex raw in
  if (1 <? length matches)%nat then
    let command := Strings.TrimSpace (nth 1 matches []) in
    getFirstNonEmptyLine command
  else
    (* Caso 2: inline code con backticks *)
    let matches := FindStringSubmatch inlineRegex raw in
    if (1 <? length matches)%nat then
      let command := Strings.TrimSpace (nth 1 matches []) in
      command
    else
      (* Caso 3: primera linea que parece comando *)
      match firstCommandLine (Strings.Split raw nl) with
      | Some line => line
      | None =>
          (* Si nada funciona, retornar la primera linea no vacia *)
          getFirstNonEmptyLine raw
      end.

(** ** Provider configuration *)

(** The process environment: [None] is an unset variable. *)
Definition Env := gostring -> option gostring.

(** [os.Getenv]: the value of the variable, empty when it is not set. *)
Definition os_Getenv (env : Env) (key : gostring) : gostring :=
  match env key with
  | Some value => value
  | None => []
  end.

(** getEnvOrDefault obtiene variable de entorno o valor por defecto *)
Definition getEnvOrDefault (env : Env) (key defaultValue : gostring)
  : gostring :=
  let value := os_Getenv env key in
  if negb (is_empty value) then value else defaultValue.

(** Configuracion de la API IA *)
Record AIConfig : Type := mkAIConfig {
  Provider : gostring;
  BaseURL : gostring;
  APIKey : gostring;
  Model : gostring
}.

(** getAIConfig obtiene la configuracion desde variables de entorno *)
Definition getAIConfig (env : Env) : AIConfig :=
  let config :=
    {| Provider := getEnvOrDefault env (lit "AI_PROVIDER") (lit "ollama");
       BaseURL := [];
       APIKey := [];
       Model := [] |} in
  if gostring_eqb (Provider config) (lit "openai") then
    {| Provider := Provider config;
       BaseURL := getEnvOrDefault env (lit "AI_BASE_URL")
                    (lit "https://api.openai.com/v1/chat/completions");
       APIKey := os_Getenv env (lit "AI_API_KEY");
       Model := getEnvOrDefault env (lit "AI_MODEL") (lit "gpt-3.5-turbo") |}
  else if gostring_eqb (Provider config) (lit "gemini") then
    {| Provider := Provider config;
       BaseURL := getEnvOrDefault env (lit "AI_BASE_URL")
                    (lit "https://generativelanguage.googleapis.com/v1beta/models");
       APIKey := os_Getenv env (lit "AI_API_KEY");
       Model := getEnvOrDefault env (lit "AI_MODEL") (lit "gemini-pro") |}
  else if gostring_eqb (Provider config) (lit "ollama") then
    {| Provider := Provider config;
       BaseURL := getEnvOrDefault env (lit "AI_BASE_URL")
                    (lit "http://localhost:11434/api/generate");
       APIKey := APIKey config;
       Model := getEnvOrDefault env (lit "AI_MODEL") (lit "llama2") |}
  else config.

(** ** The call to the provider *)

(** The payloads are JSON documents. *)
#[local] Unset Elimination Schemes.
Inductive Json : Type :=
| JString (s : gostring)
| JNumber (n : Z)
| JBool (b : bool)
| JArray (items : list Json)
| JObject (fields : list (gostring * Json)).
#[local] Set Elimination Schemes.

(** The errors [callAIAPI] returns, one constructor per [fmt.Errorf]. *)
Inductive CallError : Type :=
| UnsupportedProvider (provider : gostring)  (* proveedor no soportado: %s *)
| MarshalError (cause : gostring)       (* error serializando payload: %v *)
| NewRequestError (cause : gostring)    (* error creando request: %v *)
| RequestError (cause : gostring)       (* error en request HTTP: %v *)
| ReadError (cause : gostring)          (* error leyendo respuesta: %v *)
| HTTPStatus (code : Z) (body : gostring)        (* error HTTP %d: %s *)
| OpenAIParseError (cause : gostring)   (* error parseando respuesta OpenAI: %v *)
| GeminiParseError (cause : gostring)   (* error parseando respuesta Gemini: %v *)
| OllamaParseError (cause : gostring).  (* error parseando respuesta Ollama: %v *)

(** A value or an error, and the sequencing of [if err != nil { return }]. *)
Definition Result (E A : Type) : Type := (E + A)%type.

Definition bind {E A B : Type} (m : Result E A) (f : A -> Result E B)
  : Result E B :=
  match m with
  | inl e => inl e
  | inr a => f a
  end.

Definition wrap {A : Type} (ctx : gostring -> CallError)
  (m : Result gostring A) : Result CallError A :=
  match m with
  | inl cause => inl (ctx cause)
  | inr a => inr a
  end.

Notation "x <- m ;;; k" := (bind m (fun x => k))
  (at level 100, m at next level, right associativity).

(** Respuesta de OpenAI *)
Record OpenAIChoice : Type := { Message_Content : gostring }.
Record OpenAIResponse : Type := { Choices : list OpenAIChoice }.

(** Respuesta de Gemini *)
Record GeminiPart : Type := { Text : gostring }.
Record GeminiCandidate : Type := { Content_Parts : list GeminiPart }.
Record GeminiResponse : Type := { Candidates : list GeminiCandidate }.

(** Respuesta de Ollama *)
Record OllamaResponse : Type := { Response : gostring }.

Record Request : Type := mkRequest {
  Method : gostring;
  URL : gostring;
  Body : gostring;
  Header : list (gostring * gostring)
}.

(** What [client.Do] hands back: the status code and what [io.ReadAll]
    gets out of the body. *)
Record HTTPResponse : Type := {
  StatusCode : Z;
  ReadAll : Result gostring gostring
}.

(** The libraries and the network the call goes through.  Errors are
    kept as the text [%v] prints. *)
Record World : Type := {
  json_Marshal : Json -> Result gostring gostring;
  http_NewRequest_error : gostring -> gostring -> option gostring;
  client_Do : Request -> Result gostring HTTPResponse;
  Unmarshal_OpenAI : gostring -> Result gostring OpenAIResponse;
  Unmarshal_Gemini : gostring -> Result gostring GeminiResponse;
  Unmarshal_Ollama : gostring -> Result gostring OllamaResponse
}.

Definition systemPrompt : gostring :=
  lit "Eres un asistente que convierte lenguaje natural a comandos de Unix/Linux. Responde SOLO con el comando, sin explicaciones.".

Definition userPrompt (prompt : gostring) : gostring :=
  systemPrompt ++ lit " Usuario: " ++ prompt.

(** The first [switch] of callAIAPI: payload and endpoint of the
    provider. *)
Definition buildRequest (config : AIConfig) (prompt : gostring)
  : Result CallError (Json * gostring) :=
  if gostring_eqb (Provider config) (lit "openai") then
    inr (JObject
           [ (lit "model", JString (Model config));
             (lit "messages",
               JArray
                 [ JObject [ (lit "role", JString (lit "system"));
                             (lit "content", JString systemPrompt) ];
                   JObject [ (lit "role", JString (lit "user"));
                             (lit "content", JString prompt) ] ]);
             (lit "max_tokens", JNumber 100) ],
         BaseURL config)
  else if gostring_eqb (Provider config) (lit "gemini") then
    inr (JObject
           [ (lit "contents",
               JArray
                 [ JObject
                     [ (lit "parts",
                         JArray
                           [ JObject
                               [ (lit "text", JString (userPrompt prompt)) ]
                           ]) ] ]) ],
         BaseURL config ++ lit "/" ++ Model config
           ++ lit ":generateContent?key=" ++ APIKey config)
  else if gostring_eqb (Provider config) (lit "ollama") then
    inr (JObject
           [ (lit "model", JString (Model config));
             (lit "prompt", JString (userPrompt prompt));
             (lit "stream", JBool false) ],
         BaseURL config)
  else inl (UnsupportedProvider (Provider config)).

(** Setear headers *)
Definition setHeaders (config : AIConfig) (req : Request) : Request :=
  let req :=
    {| Method := Method req; URL := URL req; Body := Body req;
       Header := (lit "Content-Type", lit "application/json") :: Header req |}
  in
  if negb (is_empty (APIKey config)) then
    if gostring_eqb (Provider config) (lit "openai") then
      {| Method := Method req; URL := URL req; Body := Body req;
         Header := (lit "Authorization", lit "Bearer " ++ APIKey config)
                   :: Header req |}
    else req
  else req.

Inductive TranslateError : Type :=
| ConnectionFailed (cause : CallError)
    (* no se pudo conectar con la IA (verifica tu conexion o API key): %v *)
| NoCommandExtracted.
    (* la IA no pudo generar un comando valido *)

Section Call.

Variable w : World.

(** Manejar errores HTTP, then parsear respuesta segun provider. *)
Definition decodeResponse (provider : gostring) (statusCode : Z)
  (body : gostring) : Result CallError gostring :=
  if (statusCode >=? 400)%Z then inl (HTTPStatus statusCode body)
  else if gostring_eqb provider (lit "openai") then
    openAIResp <- wrap OpenAIParseError (Unmarshal_OpenAI w body) ;;;
    match Choices openAIResp with
    | choice :: _ => inr (Message_Content choice)
    | [] => inr []
    end
  else if gostring_eqb provider (lit "gemini") then
    geminiResp <- wrap GeminiParseError (Unmarshal_Gemini w body) ;;;
    match Candidates geminiResp with
    | candidate :: _ =>
        match Content_Parts candidate with
        | part :: _ => inr (Text part)
        | [] => inr []
        end
    | [] => inr []
    end
  else if gostring_eqb provider (lit "ollama") then
    ollamaResp <- wrap OllamaParseError (Unmarshal_Ollama w body) ;;;
    inr (Response ollamaResp)
  else inr [].

(** Everything after the request is built; [sent] lists the requests
    given to [client.Do]. *)
Definition exchange (config : AIConfig) (payload : Json)
  (endpoint : gostring) : list Request * Result CallError gostring :=
  match json_Marshal w payload with
  | inl cause => ([], inl (MarshalError cause))
  | inr jsonData =>
      match http_NewRequest_error w (lit "POST") endpoint with
      | Some cause => ([], inl (NewRequestError cause))
      | None =>
          let req := setHeaders config (mkRequest (lit "POST") endpoint jsonData []) in
          ([req],
           resp <- wrap RequestError (client_Do w req) ;;;
           body <- wrap ReadError (ReadAll resp) ;;;
           decodeResponse (Provider config) (StatusCode resp) body)
      end
  end.

(** callAIAPI realiza la llamada HTTP a la API de IA *)
Definition callAIAPI (env : Env) (prompt : gostring)
  : list Request * Result CallError gostring :=
  let config := getAIConfig env in
  match buildRequest config prompt with
  | inl err => ([], inl err)
  | inr (payload, endpoint) => exchange config payload endpoint
  end.

(** TranslateToCommand funcion principal que orquesta la traduccion *)
Definition TranslateToCommand (env : Env) (userText : gostring)
  : gostring * gostring * option TranslateError :=
  match snd (callAIAPI env userText) with
  | inl err => ([], [], Some (ConnectionFailed err))
  | inr rawResponse =>
      let sanitizedCommand := sanitizeCommand rawResponse in
      if is_empty sanitizedCommand
      then (rawResponse, [], Some NoCommandExtracted)
      else (rawResponse, sanitizedCommand, None)
  end.

End Call.


(** ** The shell

    The methods of MiniShell, in a module of their own. *)

Module Shell.

(** MiniShell representa el shell asistido por IA *)
Record MiniShell : Type := { running : bool }.

(** NewMiniShell crea una nueva instancia del shell *)
Definition NewMiniShell : MiniShell := {| running := true |}.

(** displayPrompt muestra el prompt del shell *)
Definition displayPrompt (ms : MiniShell) : gostring := lit "neri> ".

(** shouldExit verifica si el usuario quiere salir *)
Definition shouldExit (ms : MiniShell) (input : gostring) : bool :=
  let input := Strings.ToLower (Strings.TrimSpace input) in
  gostring_eqb input (lit "exit") || gostring_eqb input (lit "quit").

(** What the shell writes on standard output, one constructor per group
    of print statements. *)
Inductive Output : Type :=
| Banner                              (* Mini-shell asistido por IA ... *)
| KeyWarning (provider : gostring)    (* ADVERTENCIA: No se encontro AI_API_KEY ... *)
| Prompt (prompt : gostring)          (* fmt.Print(prompt) *)
| ReadFailure (cause : gostring)      (* Error leyendo input: %v *)
| Leaving                             (* Saliendo... *)
| TranslateFailure (err : TranslateError)  (* Error procesando comando: %v *)
| RawAnswer (rawResponse : gostring)  (* IA raw: %s *)
| Command (finalCommand : gostring)   (* CMD: %s *)
| Farewell.                           (* Hasta luego! *)

(** checkAPIKey verifica si existe la API key y muestra advertencia si no *)
Definition checkAPIKey (ms : MiniShell) (env : Env) : list Output :=
  let provider := os_Getenv env (lit "AI_PROVIDER") in
  let provider := if is_empty provider then lit "ollama" else provider in
  (* Solo verificar API key para providers que la necesitan *)
  if gostring_eqb provider (lit "openai")
     || gostring_eqb provider (lit "gemini") then
    let apiKey := os_Getenv env (lit "AI_API_KEY") in
    if is_empty apiKey then [KeyWarning provider] else []
  else [].

Inductive Flow : Type := Continue | Break.

(** One turn of the loop of run: the prompt is shown, [read] is what
    [reader.ReadString] returns.  The result is what is printed, the
    requests given to the HTTP client, and whether the loop goes on. *)
Definition iteration (w : World) (env : Env) (ms : MiniShell)
  (read : Result gostring gostring) : list Output * list Request * Flow :=
  let prompt := displayPrompt ms in
  match read with
  | inl err => ([Prompt prompt; ReadFailure err], [], Continue)
  | inr userInput =>
      let userInput := Strings.TrimSpace userInput in
      (* Manejar input vacio *)
      if is_empty userInput then ([Prompt prompt], [], Continue)
      (* Manejar comandos de salida *)
      else if shouldExit ms userInput then
        ([Prompt prompt; Leaving], [], Break)
      else
        (* Procesar comando a traves de IA; the requests are those of
           the one call of callAIAPI that TranslateToCommand makes *)
        let requests := fst (callAIAPI w env userInput) in
        match TranslateToCommand w env userInput with
        | (_, _, Some err) =>
            ([Prompt prompt; TranslateFailure err], requests, Continue)
        | (rawResponse, finalCommand, None) =>
            (* Mostrar resultados (sin ejecutar) *)
            ([Prompt prompt]
               ++ (if negb (is_empty rawResponse)
                   then [RawAnswer rawResponse] else [])
               ++ [Command finalCommand],
             requests, Continue)
        end
  end.

(** The loop of run over the reads that have happened so far.  The last
    component tells whether the loop has been left; with the reads used
    up and the loop not left, the shell is waiting for input. *)
Fixpoint loop (w : World) (env : Env) (ms : MiniShell)
  (reads : list (Result gostring gostring))
  : list Output * list Request * bool :=
  if running ms then
    match reads with
    | [] => ([], [], false)
    | read :: more =>
        match iteration w env ms read with
        | (out, requests, Break) => (out, requests, true)
        | (out, requests, Continue) =>
            match loop w env ms more with
            | (out', requests', done) =>
                (out ++ out', requests ++ requests', done)
            end
        end
    end
  else ([], [], true).

(** run ejecuta el loop principal REPL.  Signals are left out: nothing
    in the loop itself changes [running]. *)
Definition run (w : World) (env : Env) (ms : MiniShell)
  (reads : list (Result gostring gostring))
  : list Output * list Request * bool :=
  match loop w env ms reads with
  | (out, requests, done) =>
      ([Banner] ++ checkAPIKey ms env ++ out
         ++ (if done then [Farewell] else []),
       requests, done)
  end.

End Shell.

(** ** Vocabulary of the properties *)

(** A text made of white space only (the empty text included). *)
Definition blank (s : gostring) : bool := forallb Unicode.IsSpace s.

(** No white space at either end. *)
Definition no_outer_space (s : gostring) : Prop :=
  (forall c r, s = c :: r -> Unicode.IsSpace c = false) /\
  (forall c r, s = r ++ [c] -> Unicode.IsSpace c = false).

(** [a] occurs in [b] as a contiguous piece. *)
Definition infix_of (a b : gostring) : Prop :=
  exists x y, b = x ++ a ++ y.

(** The lines of a text, each trimmed, the blank ones left out. *)
Definition nonblank_lines (text : gostring) : list gostring :=
  filter (fun l => negb (is_empty l))
         (map Strings.TrimSpace (Strings.Split text nl)).

(** What case 3 looks for: a trimmed line that is not empty and does not
    look like an explanation. *)
Definition commandLike (line : gostring) : bool :=
  negb (is_empty line) && negb (looksLikeExplanation line).

(** The first line of the text, trimmed, that is command-like. *)
Definition firstCandidate (text : gostring) : option gostring :=
  find commandLike (map Strings.TrimSpace (Strings.Split text nl)).

(** A line that is a prompt marker and nothing else. *)
Definition bare_prompt (line : gostring) : Prop :=
  line = lit "$" \/ line = lit "neri>" \/ line = lit "Emiliano>".

(** The environment with one variable removed. *)
Definition unset (key : gostring) (env : Env) : Env :=
  fun k => if gostring_eqb k key then None else env k.

(** The defaults of getAIConfig, per provider; a provider outside the
    three has none. *)
Definition defaultBaseURL (provider : gostring) : gostring :=
  if gostring_eqb provider (lit "openai")
  then lit "https://api.openai.com/v1/chat/completions"
  else if gostring_eqb provider (lit "gemini")
  then lit "https://generativelanguage.googleapis.com/v1beta/models"
  else if gostring_eqb provider (lit "ollama")
  then lit "http://localhost:11434/api/generate"
  else [].

Definition defaultModel (provider : gostring) : gostring :=
  if gostring_eqb provider (lit "openai") then lit "gpt-3.5-turbo"
  else if gostring_eqb provider (lit "gemini") then lit "gemini-pro"
  else if gostring_eqb provider (lit "ollama") then lit "llama2"
  else [].

Definition supported (provider : gostring) : Prop :=
  In provider [lit "openai"; lit "gemini"; lit "ollama"].

(** An environment given by a list of bindings, first binding first. *)
Fixpoint env_of (bindings : list (gostring * gostring)) : Env :=
  fun key =>
    match bindings with
    | [] => None
    | (k, v) :: more => if gostring_eqb key k then Some v else env_of more key
    end.

(** A world in which every call succeeds, every response has status
    [status] and every body parses to the answer [ls -la]. *)
Definition sampleWorld (status : Z) : World :=
  {| json_Marshal := fun _ => inr (lit "{}");
     http_NewRequest_error := fun _ _ => None;
     client_Do := fun _ =>
       inr {| StatusCode := status; ReadAll := inr (lit "{}") |};
     Unmarshal_OpenAI := fun _ =>
       inr {| Choices := [ {| Message_Content := lit "ls -la" |} ] |};
     Unmarshal_Gemini := fun _ =>
       inr {| Candidates :=
                [ {| Content_Parts := [ {| Text := lit "ls -la" |} ] |} ] |};
     Unmarshal_Ollama := fun _ => inr {| Response := lit "ls -la" |} |}.

(** The fence pattern is ["```"], an optional tag, and what follows; the
    parts are named to state lemmas about them. *)
Definition fenceTags : regex :=
  (Str (lit "bash") <|> Str (lit "sh") <|> Str (lit "zsh")
   <|> Str (lit "shell"))%re.

Definition fenceClose : regex :=
  (Opt (Chr (Char nl)) ;; Str (lit "```"))%re.

Definition fenceBody : regex :=
  (Opt (Chr (Char nl)) ;; Group (StarLazy Any) ;; fenceClose)%re.

(** What the prompt pattern removes from a trimmed line: one leading
    marker, the first of the three the line starts with. *)
Definition stripMarker (line : gostring) : gostring :=
  if Strings.HasPrefix line (lit "$") then skipn 1 line
  else if Strings.HasPrefix line (lit "neri>") then skipn 5 line
  else if Strings.HasPrefix line (lit "Emiliano>") then skipn 9 line
  else line.

(** The phrases of explanationPatterns, without the anchor. *)
Definition explanationPhrases : list gostring :=
  [ lit "para"; lit "usa"; lit "este"; lit "el comando"; lit "la respuesta";
    lit "you can"; lit "this will"; lit "use"; lit "the command" ].

(** Thread [u] is reached from thread [t] by consuming [mid]; group 1 is
    untouched or was taken from [mid]. *)
Definition extends (t u : thread) : Prop :=
  exists mid,
    rest t = mid ++ rest u /\ pos u = pos t + length mid /\
    (group1 u = group1 t \/ infix_of (group1 u) mid).

(** The environment with one variable set. *)
Definition setenv (key value : gostring) (env : Env) : Env :=
  fun k => if gostring_eqb k key then Some value else env k.

(** The number of backticks of a text. *)
Definition ticks (s : gostring) : nat := count_occ N.eq_dec s backtick.

(** The errors that arise before a request is handed to the client. *)
Definition before_send (e : CallError) : bool :=
  match e with
  | UnsupportedProvider _ | MarshalError _ | NewRequestError _ => true
  | _ => false
  end.

(** The providers that need a key. *)
Definition needs_key (provider : gostring) : bool :=
  gostring_eqb provider (lit "openai") || gostring_eqb provider (lit "gemini").

(** The lines of a session that are handed to TranslateToCommand: the
    lines read without error, trimmed, that are not empty, up to the
    first exit word. *)
Fixpoint forwarded (ms : Shell.MiniShell)
  (reads : list (Result gostring gostring)) : list gostring :=
  match reads with
  | [] => []
  | inl _ :: more => forwarded ms more
  | inr line :: more =>
      let userInput := Strings.TrimSpace line in
      if is_empty userInput then forwarded ms more
      else if Shell.shouldExit ms userInput then []
      else userInput :: forwarded ms more
  end.

(** * Properties *)

(** ** Trimming *)

Section TrimFacts.

Variable f : rune -> bool.

Lemma TrimLeftFunc_app_all (ws s : gostring) :
  forallb f ws = true ->
  Strings.TrimLeftFunc f (ws ++ s) = Strings.TrimLeftFunc f s.
Proof.
  induction ws as [|c ws IH]; simpl; intros H; [reflexivity|].
  apply andb_prop in H as [Hc Hws]. rewrite Hc. auto.
Qed.

Lemma TrimLeftFunc_keep (c : rune) (s : gostring) :
  f c = false -> Strings.TrimLeftFunc f (c :: s) = c :: s.
Proof. intros H; simpl; rewrite H; reflexivity. Qed.

Lemma TrimLeftFunc_head (s : gostring) (c : rune) (r : gostring) :
  Strings.TrimLeftFunc f s = c :: r -> f c = false.
Proof.
  induction s as [|d s IH]; simpl; [discriminate|].
  destruct (f d) eqn:E; [exact IH|].
  intros H; injection H as <- _; exact E.
Qed.

Lemma TrimLeftFunc_decompose (s : gostring) :
  exists ws, s = ws ++ Strings.TrimLeftFunc f s /\ forallb f ws = true.
Proof.
  induction s as [|d s [ws [E B]]]; simpl.
  - exists []; auto.
  - destruct (f d) eqn:Ed.
    + exists (d :: ws); simpl; rewrite Ed, B, <- E; auto.
    + exists []; auto.
Qed.

Lemma TrimRightFunc_decompose (s : gostring) :
  exists ws, s = Strings.TrimRightFunc f s ++ ws /\ forallb f ws = true.
Proof.
  unfold Strings.TrimRightFunc.
  destruct (TrimLeftFunc_decompose (rev s)) as [ws [E B]].
  exists (rev ws); split.
  - rewrite <- rev_app_distr, <- E, rev_involutive; reflexivity.
  - rewrite forallb_forall in *; intros x Hx; apply B, in_rev, Hx.
Qed.

Lemma TrimRightFunc_last (s : gostring) (c : rune) (r : gostring) :
  Strings.TrimRightFunc f s = r ++ [c] -> f c = false.
Proof.
  unfold Strings.TrimRightFunc; intros H.
  apply (f_equal (@rev rune)) in H.
  rewrite rev_involutive, rev_app_distr in H; simpl in H.
  eapply TrimLeftFunc_head; eauto.
Qed.

Lemma TrimRightFunc_keep (s : gostring) (c : rune) :
  f c = false -> Strings.TrimRightFunc f (s ++ [c]) = s ++ [c].
Proof.
  intros H; unfold Strings.TrimRightFunc.
  rewrite rev_app_distr; simpl; rewrite H.
  change (c :: rev s) with (rev [c] ++ rev s).
  rewrite <- rev_app_distr, rev_involutive; reflexivity.
Qed.

Lemma TrimRightFunc_app_all (s ws : gostring) :
  forallb f ws = true ->
  Strings.TrimRightFunc f (s ++ ws) = Strings.TrimRightFunc f s.
Proof.
  intros H; unfold Strings.TrimRightFunc.
  rewrite rev_app_distr, TrimLeftFunc_app_all; [reflexivity|].
  rewrite forallb_forall in *; intros x Hx; apply H, in_rev; exact Hx.
Qed.

End TrimFacts.

Lemma blank_app (a b : gostring) : blank (a ++ b) = blank a && blank b.
Proof. apply forallb_app. Qed.

Lemma no_outer_space_nil : no_outer_space [].
Proof.
  split; intros c r H; [discriminate|].
  destruct r; discriminate.
Qed.

(** A list is empty or ends in some element. *)
Lemma snoc_cases (s : gostring) : s = [] \/ exists r c, s = r ++ [c].
Proof.
  destruct s as [|x s] using rev_ind; [left; reflexivity|].
  right; exists s, x; reflexivity.
Qed.

(** The text between the white space at both ends is what TrimSpace
    returns. *)
Lemma TrimSpace_unique (a m b : gostring) :
  blank a = true -> blank b = true -> no_outer_space m ->
  Strings.TrimSpace (a ++ m ++ b) = m.
Proof.
  intros Ha Hb [Hhd Hlast]; unfold Strings.TrimSpace.
  rewrite TrimLeftFunc_app_all by exact Ha.
  destruct m as [|c m].
  - simpl.
    destruct (TrimLeftFunc_decompose Unicode.IsSpace b) as [ws [E B]].
    assert (Hnil : Strings.TrimLeftFunc Unicode.IsSpace b = []).
    { destruct (Strings.TrimLeftFunc Unicode.IsSpace b) as [|d r] eqn:Et;
        [reflexivity|].
      pose proof (TrimLeftFunc_head _ _ _ _ Et) as Hd.
      unfold blank in Hb; rewrite E, forallb_app in Hb.
      apply andb_prop in Hb as [_ Hb]; simpl in Hb; rewrite Hd in Hb.
      discriminate. }
    rewrite Hnil; reflexivity.
  - change ((c :: m) ++ b) with (c :: (m ++ b)).
    rewrite TrimLeftFunc_keep by (eapply Hhd; reflexivity).
    change (c :: m ++ b) with ((c :: m) ++ b).
    rewrite TrimRightFunc_app_all by exact Hb.
    destruct (snoc_cases (c :: m)) as [E | [r [d E]]]; [discriminate|].
    rewrite E; apply TrimRightFunc_keep; eapply Hlast; exact E.
Qed.

Lemma TrimSpace_no_outer_space (s : gostring) :
  no_outer_space (Strings.TrimSpace s).
Proof.
  unfold Strings.TrimSpace; split; intros c r H.
  - destruct (TrimRightFunc_decompose Unicode.IsSpace
                (Strings.TrimLeftFunc Unicode.IsSpace s)) as [ws [E _]].
    rewrite H in E; simpl in E.
    eapply TrimLeftFunc_head; exact E.
  - eapply TrimRightFunc_last; exact H.
Qed.

Lemma TrimSpace_decompose (s : gostring) :
  exists a b, s = a ++ Strings.TrimSpace s ++ b
              /\ blank a = true /\ blank b = true.
Proof.
  destruct (TrimLeftFunc_decompose Unicode.IsSpace s) as [a [Ea Ba]].
  destruct (TrimRightFunc_decompose Unicode.IsSpace
              (Strings.TrimLeftFunc Unicode.IsSpace s)) as [b [Eb Bb]].
  exists a, b; unfold Strings.TrimSpace; rewrite <- Eb, <- Ea; auto.
Qed.

Lemma TrimSpace_fixed (s : gostring) :
  no_outer_space s -> Strings.TrimSpace s = s.
Proof.
  intros H.
  pose proof (TrimSpace_unique [] s [] eq_refl eq_refl H) as E.
  simpl in E; rewrite app_nil_r in E; exact E.
Qed.

Lemma TrimSpace_idempotent (s : gostring) :
  Strings.TrimSpace (Strings.TrimSpace s) = Strings.TrimSpace s.
Proof. apply TrimSpace_fixed, TrimSpace_no_outer_space. Qed.

Lemma TrimSpace_blank (s : gostring) :
  blank s = true -> Strings.TrimSpace s = [].
Proof.
  intros H.
  pose proof (TrimSpace_unique s [] [] H eq_refl no_outer_space_nil) as E.
  simpl in E; rewrite app_nil_r in E; exact E.
Qed.

Lemma TrimSpace_nil_blank (s : gostring) :
  Strings.TrimSpace s = [] -> blank s = true.
Proof.
  intros H; destruct (TrimSpace_decompose s) as [a [b [E [Ba Bb]]]].
  rewrite H in E; simpl in E; rewrite E, blank_app, Ba, Bb; reflexivity.
Qed.

Lemma TrimSpace_cons_space (c : rune) (s : gostring) :
  Unicode.IsSpace c = true ->
  Strings.TrimSpace (c :: s) = Strings.TrimSpace s.
Proof. intros H; unfold Strings.TrimSpace; simpl; rewrite H; reflexivity. Qed.

Lemma TrimSpace_snoc_space (s : gostring) (c : rune) :
  Unicode.IsSpace c = true ->
  Strings.TrimSpace (s ++ [c]) = Strings.TrimSpace s.
Proof.
  intros H; destruct (TrimSpace_decompose s) as [a [b [E [Ba Bb]]]].
  rewrite E at 1; rewrite <- !app_assoc.
  apply TrimSpace_unique; auto using TrimSpace_no_outer_space.
  rewrite blank_app, Bb; simpl; rewrite H; reflexivity.
Qed.

Lemma TrimSpace_infix (s : gostring) : infix_of (Strings.TrimSpace s) s.
Proof.
  destruct (TrimSpace_decompose s) as [a [b [E _]]]; exists a, b; exact E.
Qed.


(** ** Lines *)

Lemma Split_nonempty (s : gostring) (sep : rune) :
  exists l ls, Strings.Split s sep = l :: ls.
Proof.
  destruct s as [|c s]; simpl; [eauto|].
  destruct (c =? sep)%N; [eauto|].
  destruct (Strings.Split s sep); eauto.
Qed.

Lemma Split_cons_sep (s : gostring) (sep : rune) :
  Strings.Split (sep :: s) sep = [] :: Strings.Split s sep.
Proof. simpl; rewrite N.eqb_refl; reflexivity. Qed.

Lemma Split_cons_other (c : rune) (s : gostring) (sep : rune)
  (l : gostring) (ls : list gostring) :
  c <> sep -> Strings.Split s sep = l :: ls ->
  Strings.Split (c :: s) sep = (c :: l) :: ls.
Proof.
  intros Hc E; simpl.
  apply N.eqb_neq in Hc; rewrite Hc, E; reflexivity.
Qed.

(** A text without separator is its own single line. *)
Lemma Split_single (s : gostring) (sep : rune) :
  ~ In sep s -> Strings.Split s sep = [s].
Proof.
  induction s as [|c s IH]; intros H; [reflexivity|].
  assert (Hc : c <> sep) by (intros ->; apply H; left; reflexivity).
  apply Split_cons_other; [exact Hc|].
  apply IH; intros Hin; apply H; right; exact Hin.
Qed.

(** Appending one rune either opens a new line or extends the last. *)
Lemma Split_snoc (s : gostring) (c sep : rune) :
  exists init lst,
    Strings.Split s sep = init ++ [lst] /\
    Strings.Split (s ++ [c]) sep =
      if (c =? sep)%N then init ++ [lst; []] else init ++ [lst ++ [c]].
Proof.
  induction s as [|d s [init [lst [E1 E2]]]].
  - exists [], []; simpl; destruct (c =? sep)%N; auto.
  - simpl; destruct (d =? sep)%N.
    + exists ([] :: init), lst; rewrite E1, E2.
      destruct (c =? sep)%N; auto.
    + rewrite E1, E2; destruct init as [|i init]; simpl.
      * exists [], (d :: lst); destruct (c =? sep)%N; auto.
      * exists ((d :: i) :: init), lst; destruct (c =? sep)%N; auto.
Qed.

Lemma nonblank_lines_cons_space (c : rune) (s : gostring) :
  Unicode.IsSpace c = true -> nonblank_lines (c :: s) = nonblank_lines s.
Proof.
  intros H; unfold nonblank_lines.
  destruct (N.eq_dec c nl) as [-> | Hc].
  - rewrite Split_cons_sep; reflexivity.
  - destruct (Split_nonempty s nl) as [l [ls E]].
    rewrite (Split_cons_other c s nl l ls Hc E), E; simpl.
    rewrite (TrimSpace_cons_space _ _ H); reflexivity.
Qed.

Lemma nonblank_lines_snoc_space (s : gostring) (c : rune) :
  Unicode.IsSpace c = true -> nonblank_lines (s ++ [c]) = nonblank_lines s.
Proof.
  intros H; unfold nonblank_lines.
  destruct (Split_snoc s c nl) as [init [lst [E1 E2]]].
  rewrite E1, E2; destruct (c =? nl)%N.
  - rewrite !map_app, !filter_app; reflexivity.
  - rewrite !map_app, !filter_app; simpl.
    rewrite (TrimSpace_snoc_space _ _ H); reflexivity.
Qed.

Lemma nonblank_lines_app_blank_l (ws s : gostring) :
  blank ws = true -> nonblank_lines (ws ++ s) = nonblank_lines s.
Proof.
  induction ws as [|c ws IH]; simpl; intros H; [reflexivity|].
  apply andb_prop in H as [Hc Hws].
  rewrite nonblank_lines_cons_space by exact Hc; auto.
Qed.

Lemma nonblank_lines_app_blank_r (s ws : gostring) :
  blank ws = true -> nonblank_lines (s ++ ws) = nonblank_lines s.
Proof.
  induction ws as [|c ws IH] using rev_ind; intros H.
  - rewrite app_nil_r; reflexivity.
  - rewrite blank_app in H; apply andb_prop in H as [Hws Hc].
    simpl in Hc; rewrite andb_true_r in Hc.
    rewrite app_assoc, nonblank_lines_snoc_space by exact Hc; auto.
Qed.

(** Trimming the whole text does not change its non-blank lines. *)
Lemma nonblank_lines_TrimSpace (s : gostring) :
  nonblank_lines (Strings.TrimSpace s) = nonblank_lines s.
Proof.
  destruct (TrimSpace_decompose s) as [a [b [E [Ba Bb]]]].
  rewrite E at 2.
  rewrite nonblank_lines_app_blank_l, nonblank_lines_app_blank_r; auto.
Qed.

Lemma nonblank_lines_spec (s l : gostring) :
  In l (nonblank_lines s) ->
  l <> [] /\ no_outer_space l /\
  exists line, In line (Strings.Split s nl) /\ l = Strings.TrimSpace line.
Proof.
  unfold nonblank_lines; rewrite filter_In, in_map_iff.
  intros [[line [E Hin]] Hne]; subst l; repeat split.
  - destruct (Strings.TrimSpace line); [discriminate|congruence].
  - apply TrimSpace_no_outer_space.
  - apply TrimSpace_no_outer_space.
  - eauto.
Qed.


(** ** The two line loops, seen as searches over the non-blank lines *)

Lemma firstNonEmpty_hd (lines : list gostring) :
  firstNonEmpty lines =
  hd [] (filter (fun l => negb (is_empty l)) (map Strings.TrimSpace lines)).
Proof.
  induction lines as [|line more IH]; simpl; [reflexivity|].
  destruct (is_empty (Strings.TrimSpace line)); simpl; auto.
Qed.

Lemma getFirstNonEmptyLine_hd (text : gostring) :
  getFirstNonEmptyLine text = hd [] (nonblank_lines text).
Proof. apply firstNonEmpty_hd. Qed.

Lemma find_commandLike_filter (ls : list gostring) :
  find commandLike ls =
  find commandLike (filter (fun l => negb (is_empty l)) ls).
Proof.
  induction ls as [|l ls IH]; simpl; [reflexivity|].
  unfold commandLike at 1.
  destruct (is_empty l) eqn:E; simpl; [exact IH|].
  unfold commandLike at 2; rewrite E; simpl.
  destruct (looksLikeExplanation l); simpl; auto.
Qed.

Lemma firstCandidate_nonblank (text : gostring) :
  firstCandidate text = find commandLike (nonblank_lines text).
Proof. apply find_commandLike_filter. Qed.

Lemma firstCandidate_TrimSpace (text : gostring) :
  firstCandidate (Strings.TrimSpace text) = firstCandidate text.
Proof.
  rewrite !firstCandidate_nonblank, nonblank_lines_TrimSpace; reflexivity.
Qed.

Lemma firstCommandLine_find (lines : list gostring) :
  firstCommandLine lines =
  option_map
    (fun l => Strings.TrimSpace (ReplaceAllString_empty promptRegex l))
    (find commandLike (map Strings.TrimSpace lines)).
Proof.
  induction lines as [|line more IH]; simpl; [reflexivity|].
  fold (commandLike (Strings.TrimSpace line)).
  destruct (commandLike (Strings.TrimSpace line)); simpl; auto.
Qed.

Lemma getFirstNonEmptyLine_no_outer_space (text : gostring) :
  no_outer_space (getFirstNonEmptyLine text).
Proof.
  rewrite getFirstNonEmptyLine_hd.
  destruct (nonblank_lines text) as [|l ls] eqn:E; simpl.
  - apply no_outer_space_nil.
  - apply (nonblank_lines_spec text l); rewrite E; left; reflexivity.
Qed.

Lemma getFirstNonEmptyLine_nonempty (text : gostring) :
  nonblank_lines text <> [] -> getFirstNonEmptyLine text <> [].
Proof.
  rewrite getFirstNonEmptyLine_hd.
  destruct (nonblank_lines text) as [|l ls] eqn:E; simpl; [congruence|].
  intros _; apply (nonblank_lines_spec text l); rewrite E; left; reflexivity.
Qed.

Lemma getFirstNonEmptyLine_TrimSpace (text : gostring) :
  getFirstNonEmptyLine (Strings.TrimSpace text) = getFirstNonEmptyLine text.
Proof.
  rewrite !getFirstNonEmptyLine_hd, nonblank_lines_TrimSpace; reflexivity.
Qed.

(** On a text of one line the first non-empty line is the trimmed text. *)
Lemma getFirstNonEmptyLine_single (text : gostring) :
  ~ In nl text -> getFirstNonEmptyLine text = Strings.TrimSpace text.
Proof.
  intros H; unfold getFirstNonEmptyLine; rewrite (Split_single _ _ H); simpl.
  destruct (Strings.TrimSpace text); reflexivity.
Qed.

(** ** Prefixes *)

Lemma HasPrefix_app (p r : gostring) : Strings.HasPrefix (p ++ r) p = true.
Proof.
  induction p as [|a p IH]; simpl; [reflexivity|].
  rewrite N.eqb_refl; exact IH.
Qed.

Lemma HasPrefix_true (p s : gostring) :
  Strings.HasPrefix s p = true -> s = p ++ skipn (length p) s.
Proof.
  revert s; induction p as [|a p IH]; intros s H; [reflexivity|].
  destruct s as [|b s]; simpl in H; [discriminate|].
  apply andb_prop in H as [Hab Hs]; apply N.eqb_eq in Hab; subst b.
  simpl; f_equal; apply IH; exact Hs.
Qed.

Lemma HasPrefix_head (a : rune) (p s : gostring) :
  (forall r, s <> a :: r) -> Strings.HasPrefix s (a :: p) = false.
Proof.
  intros H; destruct s as [|b s]; simpl; [reflexivity|].
  destruct (a =? b)%N eqn:E; [|reflexivity].
  apply N.eqb_eq in E; subst b; exfalso; eapply H; reflexivity.
Qed.

(** ** Texts without a backtick match neither code pattern *)

Lemma match_at_backtickRegex_none (p : nat) (s : gostring) :
  (forall r, s <> backtick :: r) -> match_at backtickRegex p s = None.
Proof.
  intros H; unfold match_at, backtickRegex; cbn [run rest].
  change (lit "```") with [backtick; backtick; backtick].
  rewrite HasPrefix_head by exact H; reflexivity.
Qed.

Lemma match_at_inlineRegex_none (p : nat) (s : gostring) :
  (forall r, s <> backtick :: r) -> match_at inlineRegex p s = None.
Proof.
  intros H; unfold match_at, inlineRegex; cbn [run].
  destruct s as [|c s]; [reflexivity|].
  unfold one at 1; cbn [rest cls_match].
  destruct (c =? backtick)%N eqn:E; [|reflexivity].
  apply N.eqb_eq in E; subst c; exfalso; eapply H; reflexivity.
Qed.

Lemma search_backtickRegex_none (p : nat) (s : gostring) :
  ~ In backtick s -> search backtickRegex p s = None.
Proof.
  revert p; induction s as [|c s IH]; intros p H; cbn [search].
  - rewrite match_at_backtickRegex_none by discriminate; reflexivity.
  - rewrite match_at_backtickRegex_none.
    + apply IH; intros Hin; apply H; right; exact Hin.
    + intros r E; injection E as -> _; apply H; left; reflexivity.
Qed.

Lemma search_inlineRegex_none (p : nat) (s : gostring) :
  ~ In backtick s -> search inlineRegex p s = None.
Proof.
  revert p; induction s as [|c s IH]; intros p H; cbn [search].
  - rewrite match_at_inlineRegex_none by discriminate; reflexivity.
  - rewrite match_at_inlineRegex_none.
    + apply IH; intros Hin; apply H; right; exact Hin.
    + intros r E; injection E as -> _; apply H; left; reflexivity.
Qed.

(** ** The prompt pattern *)

(** Everything [\s] matches is white space for [unicode.IsSpace]. *)
Lemma WhiteSpace_IsSpace (c : rune) :
  Unicode.IsSpace c = false -> cls_match WhiteSpace c = false.
Proof.
  intros H; destruct (cls_match WhiteSpace c) eqn:E; [|reflexivity].
  cbn [cls_match] in E.
  repeat rewrite orb_true_iff in E; rewrite !N.eqb_eq in E.
  destruct E as [[[[-> | ->] | ->] | ->] | ->]; discriminate H.
Qed.

Lemma HasPrefix_length (p s : gostring) :
  Strings.HasPrefix s p = true -> length (firstn (length p) s) = length p.
Proof.
  intros H; apply HasPrefix_true in H.
  rewrite H at 1; rewrite firstn_app, Nat.sub_diag, firstn_all; simpl.
  rewrite app_nil_r; reflexivity.
Qed.

Lemma match_at_promptRegex_start (c : rune) (s : gostring) :
  cls_match WhiteSpace c = false ->
  match_at promptRegex 0 (c :: s) =
    if (c =? dollar)%N then Some (firstn 1 (c :: s), [])
    else if Strings.HasPrefix (c :: s) (lit "neri>")
    then Some (firstn 5 (c :: s), [])
    else if Strings.HasPrefix (c :: s) (lit "Emiliano>")
    then Some (firstn 9 (c :: s), [])
    else None.
Proof.
  intros H; unfold match_at, promptRegex.
  cbn [run orelse pos rest group1 Nat.eqb star_greedy].
  rewrite H.
  unfold one; cbn [rest pos group1 cls_match].
  destruct (c =? dollar)%N; [reflexivity|].
  destruct (Strings.HasPrefix (c :: s) (lit "neri>")); [reflexivity|].
  destruct (Strings.HasPrefix (c :: s) (lit "Emiliano>")); reflexivity.
Qed.

(** [^] holds at the start of the text only. *)
Lemma match_at_promptRegex_later (p : nat) (s : gostring) :
  match_at promptRegex (S p) s = None.
Proof. reflexivity. Qed.

Lemma delete_matches_promptRegex_later (s : gostring) (p : nat) :
  delete_matches promptRegex (S p) 0 s = s.
Proof.
  revert p; induction s as [|c s IH]; intros p; [reflexivity|].
  cbn [delete_matches]; rewrite match_at_promptRegex_later, IH; reflexivity.
Qed.

Lemma delete_matches_promptRegex_skip (n : nat) (s : gostring) (p : nat) :
  delete_matches promptRegex (S p) n s = skipn n s.
Proof.
  revert s p; induction n as [|n IH]; intros s p.
  - apply delete_matches_promptRegex_later.
  - destruct s as [|c s]; [reflexivity|].
    cbn [delete_matches skipn]; apply IH.
Qed.

(** On a trimmed line the replacement removes one leading marker, the
    first of [$], [neri>] and [Emiliano>] that the line starts with. *)
Lemma strip_prompt (l : gostring) :
  no_outer_space l ->
  ReplaceAllString_empty promptRegex l =
    if Strings.HasPrefix l (lit "$") then skipn 1 l
    else if Strings.HasPrefix l (lit "neri>") then skipn 5 l
    else if Strings.HasPrefix l (lit "Emiliano>") then skipn 9 l
    else l.
Proof.
  intros [Hhd _]; destruct l as [|c s]; [reflexivity|].
  pose proof (WhiteSpace_IsSpace c (Hhd c s eq_refl)) as Hws.
  unfold ReplaceAllString_empty; cbn [delete_matches].
  rewrite (match_at_promptRegex_start c s Hws).
  change (lit "$") with [dollar]; cbn [Strings.HasPrefix].
  rewrite andb_true_r, (N.eqb_sym dollar c).
  destruct (c =? dollar)%N.
  { cbn [firstn length]; apply delete_matches_promptRegex_later. }
  destruct (Strings.HasPrefix (c :: s) (lit "neri>")) eqn:E1.
  { pose proof (HasPrefix_length _ _ E1) as L.
    change (length (lit "neri>")) with 5 in L; rewrite L.
    apply (delete_matches_promptRegex_skip 4 s 0). }
  destruct (Strings.HasPrefix (c :: s) (lit "Emiliano>")) eqn:E2.
  { pose proof (HasPrefix_length _ _ E2) as L.
    change (length (lit "Emiliano>")) with 9 in L; rewrite L.
    apply (delete_matches_promptRegex_skip 8 s 0). }
  rewrite delete_matches_promptRegex_later; reflexivity.
Qed.

Lemma no_outer_space_blank_suffix (p r : gostring) :
  no_outer_space (p ++ r) -> blank r = true -> r = [].
Proof.
  intros [_ Hlast] B.
  destruct (snoc_cases r) as [E | [r' [d E]]]; [exact E|].
  subst r; rewrite blank_app in B; apply andb_prop in B as [_ B].
  simpl in B; rewrite andb_true_r in B.
  rewrite (Hlast d (p ++ r')) in B; [discriminate|].
  rewrite app_assoc; reflexivity.
Qed.

(** A trimmed line of which nothing is left was a marker and nothing
    else. *)
Lemma strip_prompt_blank (l : gostring) :
  l <> [] -> no_outer_space l ->
  Strings.TrimSpace (ReplaceAllString_empty promptRegex l) = [] ->
  bare_prompt l.
Proof.
  intros Hne Hl; rewrite (strip_prompt l Hl).
  assert (Hcase : forall p, Strings.HasPrefix l p = true ->
            Strings.TrimSpace (skipn (length p) l) = [] -> l = p).
  { intros p Hp Ht; apply HasPrefix_true in Hp.
    apply TrimSpace_nil_blank in Ht.
    rewrite Hp in Hl; rewrite (no_outer_space_blank_suffix _ _ Hl Ht) in Hp.
    rewrite app_nil_r in Hp; exact Hp. }
  destruct (Strings.HasPrefix l (lit "$")) eqn:E0.
  { intros H; left; apply (Hcase _ E0 H). }
  destruct (Strings.HasPrefix l (lit "neri>")) eqn:E1.
  { intros H; right; left; apply (Hcase _ E1 H). }
  destruct (Strings.HasPrefix l (lit "Emiliano>")) eqn:E2.
  { intros H; right; right; apply (Hcase _ E2 H). }
  rewrite (TrimSpace_fixed l Hl); intros H; contradiction.
Qed.

(** ** The sanitizer, strategy by strategy *)

Lemma FindStringSubmatch_cases (r : regex) (s : gostring) :
  FindStringSubmatch r s = [] \/
  exists whole g, FindStringSubmatch r s = [whole; g].
Proof.
  unfold FindStringSubmatch; destruct (search r 0 s) as [[whole g]|]; eauto.
Qed.

(** The four strategies in order, the line loops read on the lines of the
    text as given. *)
Lemma sanitizeCommand_unfold (raw : gostring) :
  sanitizeCommand raw =
  match FindStringSubmatch backtickRegex (Strings.TrimSpace raw) with
  | [_; interior] => getFirstNonEmptyLine (Strings.TrimSpace interior)
  | _ =>
      match FindStringSubmatch inlineRegex (Strings.TrimSpace raw) with
      | [_; interior] => Strings.TrimSpace interior
      | _ =>
          match firstCandidate raw with
          | Some l =>
              Strings.TrimSpace (ReplaceAllString_empty promptRegex l)
          | None => getFirstNonEmptyLine raw
          end
      end
  end.
Proof.
  unfold sanitizeCommand.
  destruct (FindStringSubmatch_cases backtickRegex (Strings.TrimSpace raw))
    as [E | [whole [g E]]]; rewrite E; [|reflexivity].
  destruct (FindStringSubmatch_cases inlineRegex (Strings.TrimSpace raw))
    as [E' | [whole [g E']]]; rewrite E'; [|reflexivity].
  cbn [length Nat.ltb Nat.leb].
  rewrite firstCommandLine_find.
  fold (firstCandidate (Strings.TrimSpace raw)).
  rewrite firstCandidate_TrimSpace, getFirstNonEmptyLine_TrimSpace.
  destruct (firstCandidate raw); reflexivity.
Qed.


(** ** Lines are pieces of the text *)

Lemma infix_of_nil (s : gostring) : infix_of [] s.
Proof. exists [], s; reflexivity. Qed.

Lemma infix_of_trans (a b c : gostring) :
  infix_of a b -> infix_of b c -> infix_of a c.
Proof.
  intros [x [y E1]] [x' [y' E2]]; exists (x' ++ x), (y ++ y').
  rewrite E2, E1, <- !app_assoc; reflexivity.
Qed.

Lemma infix_of_cons (c : rune) (a s : gostring) :
  infix_of a s -> infix_of a (c :: s).
Proof. intros [x [y E]]; exists (c :: x), y; rewrite E; reflexivity. Qed.

Lemma Split_first_prefix (s : gostring) (sep : rune) (l : gostring)
  (ls : list gostring) :
  Strings.Split s sep = l :: ls -> exists y, s = l ++ y.
Proof.
  revert l ls; induction s as [|c s IH]; intros l ls; simpl.
  - intros E; injection E as <- _; exists []; reflexivity.
  - destruct (c =? sep)%N.
    + intros E; injection E as <- _; exists (c :: s); reflexivity.
    + destruct (Strings.Split s sep) as [|l0 ls0] eqn:E0.
      * intros E; injection E as <- _; exists s; reflexivity.
      * intros E; injection E as <- _.
        destruct (IH l0 ls0 eq_refl) as [y Ey].
        exists y; rewrite Ey at 1; reflexivity.
Qed.

Lemma Split_infix (s : gostring) (sep : rune) (l : gostring) :
  In l (Strings.Split s sep) -> infix_of l s.
Proof.
  induction s as [|c s IH]; simpl.
  - intros [<- | []]; apply infix_of_nil.
  - destruct (c =? sep)%N.
    + intros [<- | H]; [apply infix_of_nil | apply infix_of_cons; auto].
    + destruct (Strings.Split s sep) as [|l0 ls0] eqn:E0.
      * intros [<- | []]; exists [], s; reflexivity.
      * intros [<- | H].
        -- destruct (Split_first_prefix s sep l0 ls0 E0) as [y Ey].
           exists [], y; rewrite Ey at 1; reflexivity.
        -- apply infix_of_cons, IH; right; exact H.
Qed.

Lemma getFirstNonEmptyLine_infix (text : gostring) :
  infix_of (getFirstNonEmptyLine text) text.
Proof.
  rewrite getFirstNonEmptyLine_hd.
  destruct (nonblank_lines text) as [|l ls] eqn:E; simpl.
  - apply infix_of_nil.
  - destruct (nonblank_lines_spec text l) as [_ [_ [line [Hin ->]]]].
    + rewrite E; left; reflexivity.
    + eapply infix_of_trans; [apply TrimSpace_infix|].
      eapply Split_infix; exact Hin.
Qed.

Lemma infix_of_In (a b : gostring) (x : rune) :
  infix_of a b -> In x a -> In x b.
Proof.
  intros [p [q ->]] H; apply in_or_app; right; apply in_or_app; left; exact H.
Qed.

(** ** The fence pattern on a block of one line

    A text that opens with a fence, an optional tag of the pattern, a
    newline, one line without backtick, a newline and a closing fence:
    the pattern matches at the start, group 1 is the line, and the
    sanitizer returns the line trimmed, whatever follows the block. *)

Lemma orelse_None_r (a : option thread) : orelse a None = a.
Proof. destruct a; reflexivity. Qed.

Lemma HasPrefix_app_other (a : rune) (body r p : gostring) :
  ~ In a body -> (forall r', r <> a :: r') ->
  Strings.HasPrefix (body ++ r) (a :: p) = false.
Proof.
  intros Hb Hr; apply HasPrefix_head; intros r' E.
  destruct body as [|x body]; simpl in E.
  - exact (Hr r' E).
  - injection E as -> _; apply Hb; left; reflexivity.
Qed.

Lemma star_lazy_scan (k : cls) (body tail : gostring) (p : nat) (g : gostring)
  (cont : K) :
  (forall x, In x body -> cls_match k x = true) ->
  (forall i x r, skipn i body = x :: r ->
     cont (Thread (p + i) (skipn i body ++ tail) g) = None) ->
  star_lazy k p (body ++ tail) g cont
    = star_lazy k (p + length body) tail g cont.
Proof.
  revert p; induction body as [|x body IH]; intros p Hk Hc.
  - simpl; rewrite Nat.add_0_r; reflexivity.
  - cbn [app star_lazy].
    pose proof (Hc 0 x body eq_refl) as H0.
    rewrite Nat.add_0_r in H0; cbn [skipn app] in H0; rewrite H0.
    rewrite (Hk x (or_introl eq_refl)); cbn [orelse].
    rewrite IH.
    + cbn [length]; rewrite Nat.add_succ_r; reflexivity.
    + intros y Hy; apply Hk; right; exact Hy.
    + intros i y r E. specialize (Hc (S i) y r E).
      rewrite Nat.add_succ_r in Hc; exact Hc.
Qed.

Lemma fenceClose_inside (p : nat) (x : rune) (r g : gostring) :
  x <> nl -> x <> backtick ->
  run fenceClose (Thread p (x :: r) g) Some = None.
Proof.
  intros H1 H2; unfold fenceClose; cbn [run]; unfold one; cbn [rest cls_match].
  apply N.eqb_neq in H1; rewrite H1; cbn [orelse rest].
  change (lit "```") with [backtick; backtick; backtick].
  rewrite HasPrefix_head; [reflexivity|].
  intros r' E; injection E as -> _; congruence.
Qed.

Lemma fenceClose_at_end (p : nat) (tail g : gostring) :
  run fenceClose (Thread p (nl :: lit "```" ++ tail) g) Some
    = Some (Thread (S p + 3) tail g).
Proof. reflexivity. Qed.

Lemma fenceClose_not_yet (p : nat) (body tail g : gostring) :
  ~ In backtick body ->
  run fenceClose (Thread p (nl :: body ++ nl :: tail) g) Some = None.
Proof.
  intros Hb; unfold fenceClose; cbn [run]; unfold one; cbn [rest cls_match pos group1].
  rewrite N.eqb_refl.
  change (lit "```") with [backtick; backtick; backtick].
  rewrite HasPrefix_app_other; [|exact Hb|discriminate].
  cbn [orelse rest]. reflexivity.
Qed.

Lemma skipn_In (i : nat) (body r : gostring) (x : rune) :
  skipn i body = x :: r -> In x body.
Proof.
  intros E; rewrite <- (firstn_skipn i body), E.
  apply in_or_app; right; left; reflexivity.
Qed.

Lemma run_fenceBody_ok (p : nat) (body tail g0 : gostring) :
  ~ In nl body -> ~ In backtick body ->
  run fenceBody (Thread p (nl :: body ++ nl :: lit "```" ++ tail) g0) Some
    = Some (Thread (S p + length body + 4) tail body).
Proof.
  intros Hnl Hbt; unfold fenceBody; cbn [run]; unfold one at 1.
  cbn [rest cls_match pos group1]; rewrite N.eqb_refl.
  cbn [pos rest group1].
  rewrite star_lazy_scan.
  - cbn [star_lazy cls_match pos rest group1].
    rewrite N.eqb_refl; cbn [negb]; rewrite orelse_None_r.
    fold fenceClose. rewrite fenceClose_at_end.
    replace (S p + length body - S p) with (length body) by lia.
    rewrite firstn_app, Nat.sub_diag, firstn_all; cbn [firstn].
    rewrite app_nil_r; cbn [orelse]. f_equal; f_equal; lia.
  - intros x Hx; cbn [cls_match]; apply negb_true_iff, N.eqb_neq.
    intros ->; exact (Hnl Hx).
  - intros i x r E; cbn [pos rest group1]; rewrite E.
    fold fenceClose; apply fenceClose_inside.
    + intros ->; apply Hnl; eapply skipn_In; exact E.
    + intros ->; apply Hbt; eapply skipn_In; exact E.
Qed.

Lemma run_fenceBody_ell (p : nat) (body tail g0 : gostring) :
  ~ In backtick body ->
  run fenceBody (Thread p (lit "ell" ++ nl :: body ++ nl :: tail) g0) Some
    = None.
Proof.
  intros Hbt; unfold fenceBody; cbn [run]; unfold one at 1.
  change (lit "ell") with [101; 108; 108]%N.
  cbn [app rest cls_match pos group1].
  change ((101 =? nl)%N) with false; cbn [orelse].
  change (101 :: 108 :: 108 :: nl :: body ++ nl :: tail)%N
    with ([101; 108; 108]%N ++ (nl :: body ++ nl :: tail)).
  rewrite star_lazy_scan.
  - cbn [star_lazy cls_match pos rest group1].
    rewrite N.eqb_refl; cbn [negb]; rewrite orelse_None_r.
    fold fenceClose; apply fenceClose_not_yet; exact Hbt.
  - intros x [<- | [<- | [<- | []]]]; reflexivity.
  - intros i x r E; cbn [pos rest group1]; rewrite E.
    fold fenceClose; apply fenceClose_inside.
    + intros ->; apply skipn_In in E.
      destruct E as [E | [E | [E | []]]]; discriminate E.
    + intros ->; apply skipn_In in E.
      destruct E as [E | [E | [E | []]]]; discriminate E.
Qed.

Lemma backtickRegex_parts (t : thread) :
  run backtickRegex t Some
  = run (Str (lit "```")) t
      (fun t1 => run (Opt fenceTags) t1 (fun t2 => run fenceBody t2 Some)).
Proof. reflexivity. Qed.

Lemma run_Str_app (p r : gostring) (n : nat) (g : gostring) (cont : K) :
  run (Str p) (Thread n (p ++ r) g) cont = cont (Thread (n + length p) r g).
Proof.
  cbn [run rest pos group1]; rewrite HasPrefix_app.
  rewrite skipn_app, Nat.sub_diag, skipn_all; reflexivity.
Qed.

Lemma run_Str_fail (p : gostring) (t : thread) (cont : K) :
  Strings.HasPrefix (rest t) p = false -> run (Str p) t cont = None.
Proof. intros H; cbn [run]; rewrite H; reflexivity. Qed.

Lemma run_Alt (a b : regex) (t : thread) (cont : K) :
  run (Alt a b) t cont = orelse (run a t cont) (run b t cont).
Proof. reflexivity. Qed.

Lemma run_Opt (a : regex) (t : thread) (cont : K) :
  run (Opt a) t cont = orelse (run a t cont) (cont t).
Proof. reflexivity. Qed.

Lemma run_fenceTags (tag body tail : gostring) (n : nat) :
  In tag [[]; lit "bash"; lit "sh"; lit "zsh"; lit "shell"] ->
  ~ In nl body -> ~ In backtick body ->
  run (Opt fenceTags)
    (Thread n (tag ++ nl :: body ++ nl :: lit "```" ++ tail) [])
    (fun t2 => run fenceBody t2 Some)
  = Some (Thread (S (n + length tag) + length body + 4) tail body).
Proof.
  intros Htag Hnl Hbt; rewrite run_Opt; unfold fenceTags; rewrite !run_Alt.
  destruct Htag as [<- | [<- | [<- | [<- | [<- | []]]]]].
  - rewrite !run_Str_fail by reflexivity; cbn [orelse app length].
    rewrite Nat.add_0_r; apply run_fenceBody_ok; assumption.
  - rewrite run_Str_app, run_fenceBody_ok by assumption; reflexivity.
  - rewrite (run_Str_fail (lit "bash")) by reflexivity.
    rewrite run_Str_app, run_fenceBody_ok by assumption; reflexivity.
  - rewrite (run_Str_fail (lit "bash")), (run_Str_fail (lit "sh"))
      by reflexivity.
    rewrite run_Str_app, run_fenceBody_ok by assumption; reflexivity.
  - rewrite (run_Str_fail (lit "bash")), (run_Str_fail (lit "zsh"))
      by reflexivity.
    change (lit "shell") with (lit "sh" ++ lit "ell") at 1.
    rewrite <- app_assoc, (run_Str_app (lit "sh")).
    rewrite run_fenceBody_ell by assumption.
    rewrite run_Str_app, run_fenceBody_ok by assumption; reflexivity.
Qed.

Lemma fence_at_start (tag body tail : gostring) :
  In tag [[]; lit "bash"; lit "sh"; lit "zsh"; lit "shell"] ->
  ~ In nl body -> ~ In backtick body ->
  match_at backtickRegex 0
    (lit "```" ++ tag ++ nl :: body ++ nl :: lit "```" ++ tail)
  = Some (lit "```" ++ tag ++ nl :: body ++ nl :: lit "```", body).
Proof.
  intros Htag Hnl Hbt; unfold match_at.
  rewrite backtickRegex_parts, run_Str_app.
  rewrite (run_fenceTags tag body tail _ Htag Hnl Hbt); cbn [pos group1].
  f_equal; f_equal.
  replace (lit "```" ++ tag ++ nl :: body ++ nl :: lit "```" ++ tail)
    with ((lit "```" ++ tag ++ nl :: body ++ nl :: lit "```") ++ tail).
  2:{ rewrite <- !app_assoc; cbn [app]; rewrite <- !app_assoc; cbn [app].
      reflexivity. }
  rewrite firstn_app.
  replace (S (0 + length (lit "```") + length tag) + length body + 4 - 0)
    with (length (lit "```" ++ tag ++ nl :: body ++ nl :: lit "```")).
  2:{ rewrite !length_app; cbn [length]; rewrite !length_app; cbn [length].
      change (length (lit "```")) with 3; lia. }
  rewrite firstn_all, Nat.sub_diag; cbn [firstn]; apply app_nil_r.
Qed.

Lemma TrimSpace_keep_front (x : gostring) (tail : gostring) :
  x <> [] -> no_outer_space x ->
  Strings.TrimSpace (x ++ tail)
    = x ++ Strings.TrimRightFunc Unicode.IsSpace tail.
Proof.
  intros Hx [Hhd Hlast].
  destruct (TrimRightFunc_decompose Unicode.IsSpace tail) as [ws [E B]].
  rewrite E at 1; rewrite app_assoc.
  pose proof (TrimSpace_unique []
                (x ++ Strings.TrimRightFunc Unicode.IsSpace tail) ws
                eq_refl B) as U.
  cbn [app] in U; apply U; split.
  - intros c r Ec; destruct x as [|d x]; [contradiction|].
    injection Ec as <- _; apply (Hhd d x eq_refl).
  - intros c r Ec.
    destruct (snoc_cases (Strings.TrimRightFunc Unicode.IsSpace tail))
      as [En | [r' [d Ed]]].
    + rewrite En, app_nil_r in Ec; apply (Hlast c r Ec).
    + rewrite Ed, app_assoc in Ec; apply app_inj_tail in Ec as [_ <-].
      eapply TrimRightFunc_last; exact Ed.
Qed.

Lemma search_here (r : regex) (p : nat) (s : gostring)
  (m : gostring * gostring) :
  match_at r p s = Some m -> search r p s = Some m.
Proof. intros H; destruct s; cbn [search]; rewrite H; reflexivity. Qed.

Lemma FindStringSubmatch_fence_at_start (tag body tail : gostring) :
  In tag [[]; lit "bash"; lit "sh"; lit "zsh"; lit "shell"] ->
  ~ In nl body -> ~ In backtick body ->
  FindStringSubmatch backtickRegex
    (lit "```" ++ tag ++ nl :: body ++ nl :: lit "```" ++ tail)
  = [lit "```" ++ tag ++ nl :: body ++ nl :: lit "```"; body].
Proof.
  intros Htag Hnl Hbt; unfold FindStringSubmatch.
  rewrite (search_here _ _ _ _ (fence_at_start tag body tail Htag Hnl Hbt)).
  reflexivity.
Qed.

Lemma fence_block_assoc (tag body tail : gostring) :
  (lit "```" ++ tag ++ nl :: body ++ nl :: lit "```") ++ tail
  = lit "```" ++ tag ++ nl :: body ++ nl :: lit "```" ++ tail.
Proof.
  rewrite <- !app_assoc; cbn [app]; rewrite <- !app_assoc; reflexivity.
Qed.

(** X9. A text that opens with a fence, an optional tag of the pattern, a
    newline, one line without backtick, a newline and a closing fence is
    sanitized to that line, trimmed, whatever follows the block. *)
Lemma sanitize_fence_at_start (tag body tail : gostring) :
  In tag [[]; lit "bash"; lit "sh"; lit "zsh"; lit "shell"] ->
  ~ In nl body -> ~ In backtick body ->
  sanitizeCommand
    (lit "```" ++ tag ++ nl :: body ++ nl :: lit "```" ++ tail)
  = Strings.TrimSpace body.
Proof.
  intros Htag Hnl Hbt.
  rewrite sanitizeCommand_unfold, <- fence_block_assoc.
  rewrite TrimSpace_keep_front.
  - rewrite fence_block_assoc.
    rewrite (FindStringSubmatch_fence_at_start tag body _ Htag Hnl Hbt).
    rewrite getFirstNonEmptyLine_single; [apply TrimSpace_idempotent|].
    intros K; apply Hnl; eapply infix_of_In; [apply TrimSpace_infix|exact K].
  - discriminate.
  - split.
    + intros c r E; injection E as <- _; reflexivity.
    + intros c r E.
      change (lit "```") with ([backtick; backtick] ++ [backtick]) in E at 2.
      rewrite !app_comm_cons, !app_assoc in E.
      apply app_inj_tail in E as [_ <-]; reflexivity.
Qed.

(** ** Results of one line

    The fenced-block, plain-line and fallback strategies return (a piece
    of) one line of a split text. *)

Lemma Split_no_sep (s : gostring) (sep : rune) (l : gostring) :
  In l (Strings.Split s sep) -> ~ In sep l.
Proof.
  revert l; induction s as [|c s IH]; intros l; simpl.
  - intros [<- | []] [].
  - destruct (c =? sep)%N eqn:Ec.
    + intros [<- | H]; [intros [] | apply IH, H].
    + apply N.eqb_neq in Ec.
      destruct (Strings.Split s sep) as [|l0 ls0] eqn:E0.
      * intros [<- | []] [K | []]; congruence.
      * intros [<- | H].
        -- intros [K | K]; [congruence|].
           apply (IH l0 (or_introl eq_refl) K).
        -- apply IH; right; exact H.
Qed.

Lemma delete_matches_In (r : regex) (s : gostring) (p skip : nat) (x : rune) :
  In x (delete_matches r p skip s) -> In x s.
Proof.
  revert p skip; induction s as [|c s IH]; intros p skip; [intros []|].
  cbn [delete_matches]; destruct skip as [|n].
  - destruct (match_at r p (c :: s)) as [[whole g]|].
    + destruct (length whole).
      * intros [<- | H]; [left; reflexivity | right; eapply IH; exact H].
      * intros H; right; eapply IH; exact H.
    + intros [<- | H]; [left; reflexivity | right; eapply IH; exact H].
  - intros H; right; eapply IH; exact H.
Qed.

Lemma getFirstNonEmptyLine_one_line (text : gostring) :
  ~ In nl (getFirstNonEmptyLine text).
Proof.
  rewrite getFirstNonEmptyLine_hd.
  destruct (nonblank_lines text) as [|l ls] eqn:E; simpl; [intros []|].
  destruct (nonblank_lines_spec text l) as [_ [_ [line [Hin ->]]]].
  - rewrite E; left; reflexivity.
  - intros K; apply (Split_no_sep text nl line Hin).
    eapply infix_of_In; [apply TrimSpace_infix | exact K].
Qed.

(** X8. When the fence pattern finds a block, or the inline pattern
    finds no span, the result holds no newline: only the inline strategy
    can return more than one line. *)
Lemma sanitize_one_line (raw : gostring) :
  FindStringSubmatch backtickRegex (Strings.TrimSpace raw) <> [] \/
  FindStringSubmatch inlineRegex (Strings.TrimSpace raw) = [] ->
  ~ In nl (sanitizeCommand raw).
Proof.
  intros H; rewrite sanitizeCommand_unfold.
  destruct (FindStringSubmatch_cases backtickRegex (Strings.TrimSpace raw))
    as [E | [whole [g E]]]; rewrite E;
    [|apply getFirstNonEmptyLine_one_line].
  destruct H as [H | H]; [contradiction|]; rewrite H.
  destruct (firstCandidate raw) as [l|] eqn:Ec;
    [|apply getFirstNonEmptyLine_one_line].
  rewrite firstCandidate_nonblank in Ec; apply find_some in Ec as [Hin _].
  apply nonblank_lines_spec in Hin as [_ [_ [line [Hin ->]]]].
  intros K; apply (Split_no_sep raw nl line Hin).
  eapply infix_of_In; [apply TrimSpace_infix|].
  eapply delete_matches_In.
  eapply infix_of_In; [apply TrimSpace_infix | exact K].
Qed.

(** ** Claims on the sanitizer *)

(** C1. A fenced block whose interior spans several lines should give the
    first non-blank line of the interior, [ls -la] for the block below.
    The fence pattern has no [s] flag, so its [.] stops at a newline and
    the pattern finds no match in this text; the inline pattern then
    matches from the third backtick of the opening fence to the first
    backtick of the closing one, and its span is returned whole: the
    language tag and both lines. *)
Theorem sanitize_multiline_fence :
  let text := lit "```bash\nls -la\n# list files\n```" in
  FindStringSubmatch backtickRegex (Strings.TrimSpace text) = [] /\
  sanitizeCommand text = lit "bash\nls -la\n# list files" /\
  sanitizeCommand text <> lit "ls -la".
Proof.
  vm_compute; repeat split; discriminate.
Qed.

(** C3. The sanitized command should be a single line, and every
    strategy but one returns a single line ([sanitize_one_line]).  The
    inline strategy returns its span after trimming only, and [[^`]]
    matches a newline: the results below hold newlines, for the
    multi-line fenced block of C1 as well as for an inline span of two
    lines. *)
Theorem sanitize_result_with_newline :
  In nl (sanitizeCommand (lit "```bash\nls -la\n# list files\n```")) /\
  In nl (sanitizeCommand (lit "`ls\npwd`")).
Proof.
  split; vm_compute; tauto.
Qed.



(** C5, as stated, fails: a bare line that starts with a prompt marker
    loses the marker. *)
Lemma sanitize_bare_command_counterexample :
  ~ (forall c : gostring,
       ~ In nl c -> ~ In backtick c -> looksLikeExplanation c = false ->
       sanitizeCommand c = Strings.TrimSpace c).
Proof.
  intros H.
  specialize (H (lit "$ ls -la")).
  assert (E : sanitizeCommand (lit "$ ls -la") = lit "ls -la")
    by (vm_compute; reflexivity).
  rewrite E in H.
  assert (E' : Strings.TrimSpace (lit "$ ls -la") = lit "$ ls -la")
    by (vm_compute; reflexivity).
  rewrite E' in H.
  assert (A : lit "ls -la" = lit "$ ls -la"); [|vm_compute in A; discriminate].
  apply H; vm_compute; [| |reflexivity];
    intros K; repeat (destruct K as [K|K]; [discriminate|]); exact K.
Qed.

(** C5, amended.  A single-line text without backtick that does not look
    like an explanation and, once trimmed, does not start with a prompt
    marker ([$], [neri>], [Emiliano>]) is returned trimmed and otherwise
    unchanged.  (The hypothesis on explanations is the claim's; the proof
    does not need it, since on a single line the fallback returns the
    same trimmed line.) *)
Theorem sanitize_bare_command (c : gostring) :
  ~ In nl c -> ~ In backtick c -> looksLikeExplanation c = false ->
  Strings.HasPrefix (Strings.TrimSpace c) (lit "$") = false ->
  Strings.HasPrefix (Strings.TrimSpace c) (lit "neri>") = false ->
  Strings.HasPrefix (Strings.TrimSpace c) (lit "Emiliano>") = false ->
  sanitizeCommand c = Strings.TrimSpace c.
Proof.
  intros Hnl Hbt _ P0 P1 P2.
  assert (Hbt' : ~ In backtick (Strings.TrimSpace c)).
  { intros K; apply Hbt; eapply infix_of_In; [apply TrimSpace_infix|exact K]. }
  rewrite sanitizeCommand_unfold.
  unfold FindStringSubmatch.
  rewrite (search_backtickRegex_none 0 _ Hbt').
  rewrite (search_inlineRegex_none 0 _ Hbt').
  unfold firstCandidate; rewrite (Split_single c nl Hnl); cbn [map find].
  destruct (commandLike (Strings.TrimSpace c)).
  - rewrite strip_prompt by apply TrimSpace_no_outer_space.
    rewrite P0, P1, P2; apply TrimSpace_idempotent.
  - apply getFirstNonEmptyLine_single; exact Hnl.
Qed.

Lemma sanitize_bare_command_witness :
  sanitizeCommand (lit "  grep -r hola .  ") = lit "grep -r hola .".
Proof.
  apply (sanitize_bare_command (lit "  grep -r hola .  "));
    try (vm_compute; reflexivity);
    vm_compute; intros K;
    repeat (destruct K as [K|K]; [discriminate|]); exact K.
Defined.

(** C6, as stated, fails: when the fence pattern matches with a blank
    interior the result is not the first non-empty line of the text. *)
Lemma sanitize_blank_fence_counterexample :
  ~ (forall raw whole interior : gostring,
       FindStringSubmatch backtickRegex (Strings.TrimSpace raw)
         = [whole; interior] ->
       Strings.TrimSpace interior = [] ->
       sanitizeCommand raw = getFirstNonEmptyLine (Strings.TrimSpace raw)).
Proof.
  intros H.
  specialize (H (lit "``````\nls -la") (lit "``````") []).
  vm_compute in H.
  specialize (H eq_refl eq_refl); discriminate.
Qed.

(** C6, amended.  When the fence pattern matches with a blank interior,
    the result is the empty string: the function returns from the first
    strategy and no other strategy is tried. *)
Theorem sanitize_blank_fence (raw whole interior : gostring) :
  FindStringSubmatch backtickRegex (Strings.TrimSpace raw)
    = [whole; interior] ->
  Strings.TrimSpace interior = [] ->
  sanitizeCommand raw = [].
Proof.
  intros H B; rewrite sanitizeCommand_unfold, H, B; reflexivity.
Qed.

Lemma sanitize_blank_fence_witness :
  sanitizeCommand (lit "``````\nls -la") = [].
Proof.
  apply (sanitize_blank_fence (lit "``````\nls -la") (lit "``````") []);
    vm_compute; reflexivity.
Defined.

(** C9. The result never starts or ends with white space. *)
Theorem sanitize_no_outer_space (raw : gostring) :
  no_outer_space (sanitizeCommand raw).
Proof.
  rewrite sanitizeCommand_unfold.
  destruct (FindStringSubmatch_cases backtickRegex (Strings.TrimSpace raw))
    as [E | [whole [g E]]]; rewrite E;
    [|apply getFirstNonEmptyLine_no_outer_space].
  destruct (FindStringSubmatch_cases inlineRegex (Strings.TrimSpace raw))
    as [E' | [whole [g E']]]; rewrite E';
    [|apply TrimSpace_no_outer_space].
  destruct (firstCandidate raw).
  - apply TrimSpace_no_outer_space.
  - apply getFirstNonEmptyLine_no_outer_space.
Qed.

(** ** Totality of the extraction *)

Lemma nonblank_lines_nil_blank (s : gostring) :
  nonblank_lines s = [] -> blank s = true.
Proof.
  induction s as [|c s IH]; [reflexivity|]; intros Hs.
  destruct (Unicode.IsSpace c) eqn:Ec.
  - simpl; rewrite Ec; apply IH.
    rewrite <- (nonblank_lines_cons_space c s Ec); exact Hs.
  - exfalso; unfold nonblank_lines in Hs.
    assert (Hc : c <> nl) by (intros ->; discriminate Ec).
    destruct (Split_nonempty s nl) as [l [ls El]].
    rewrite (Split_cons_other c s nl l ls Hc El) in Hs.
    cbn [map filter] in Hs.
    destruct (Strings.TrimSpace (c :: l)) eqn:Et; [|discriminate Hs].
    apply TrimSpace_nil_blank in Et; simpl in Et.
    rewrite Ec in Et; discriminate.
Qed.





(** ** Configuration *)

Lemma gostring_eqb_eq (a b : gostring) : gostring_eqb a b = true <-> a = b.
Proof.
  unfold gostring_eqb; destruct (list_eq_dec N.eq_dec a b); split;
    congruence.
Qed.

Lemma gostring_eqb_neq (a b : gostring) : a <> b -> gostring_eqb a b = false.
Proof.
  intros H; destruct (gostring_eqb a b) eqn:E; [|reflexivity].
  apply gostring_eqb_eq in E; contradiction.
Qed.

Lemma getEnvOrDefault_set (env : Env) (key value d : gostring) :
  env key = Some value -> value <> [] -> getEnvOrDefault env key d = value.
Proof.
  intros E Hv; unfold getEnvOrDefault, os_Getenv; rewrite E.
  destruct value; [contradiction|reflexivity].
Qed.

Lemma getEnvOrDefault_empty (env : Env) (key d : gostring) :
  env key = Some [] -> getEnvOrDefault env key d = d.
Proof.
  intros E; unfold getEnvOrDefault, os_Getenv; rewrite E; reflexivity.
Qed.

Lemma getEnvOrDefault_nonempty (env : Env) (key d : gostring) :
  d <> [] -> getEnvOrDefault env key d <> [].
Proof.
  intros Hd; unfold getEnvOrDefault.
  destruct (os_Getenv env key); simpl; [exact Hd|discriminate].
Qed.

Lemma os_Getenv_unset (env : Env) (key k : gostring) :
  env key = Some [] -> os_Getenv (unset key env) k = os_Getenv env k.
Proof.
  intros E; unfold os_Getenv, unset.
  destruct (gostring_eqb k key) eqn:Ek; [|reflexivity].
  apply gostring_eqb_eq in Ek; subst k; rewrite E; reflexivity.
Qed.

Lemma getEnvOrDefault_unset (env : Env) (key k d : gostring) :
  env key = Some [] ->
  getEnvOrDefault (unset key env) k d = getEnvOrDefault env k d.
Proof.
  intros E; unfold getEnvOrDefault; rewrite os_Getenv_unset by exact E.
  reflexivity.
Qed.

Lemma getAIConfig_unset (env : Env) (key : gostring) :
  env key = Some [] -> getAIConfig (unset key env) = getAIConfig env.
Proof.
  intros E; unfold getAIConfig.
  rewrite !(getEnvOrDefault_unset env key) by exact E.
  rewrite !(os_Getenv_unset env key) by exact E.
  reflexivity.
Qed.

(** The resolved configuration, provider by provider. *)
Lemma getAIConfig_cases (env : Env) :
  let provider := getEnvOrDefault env (lit "AI_PROVIDER") (lit "ollama") in
  Provider (getAIConfig env) = provider /\
  ((supported provider /\
    BaseURL (getAIConfig env)
      = getEnvOrDefault env (lit "AI_BASE_URL") (defaultBaseURL provider) /\
    Model (getAIConfig env)
      = getEnvOrDefault env (lit "AI_MODEL") (defaultModel provider) /\
    defaultBaseURL provider <> [] /\ defaultModel provider <> [])
   \/
   (~ supported provider /\
    getAIConfig env = mkAIConfig provider [] [] [] /\
    defaultBaseURL provider = [] /\ defaultModel provider = [])).
Proof.
  intros provider; unfold getAIConfig; fold provider; cbn [Provider].
  unfold defaultBaseURL, defaultModel, supported.
  destruct (gostring_eqb provider (lit "openai")) eqn:E1.
  { apply gostring_eqb_eq in E1; split; [reflexivity|left].
    repeat split; try discriminate; left; auto. }
  destruct (gostring_eqb provider (lit "gemini")) eqn:E2.
  { apply gostring_eqb_eq in E2; split; [reflexivity|left].
    repeat split; try discriminate; right; left; auto. }
  destruct (gostring_eqb provider (lit "ollama")) eqn:E3.
  { apply gostring_eqb_eq in E3; split; [reflexivity|left].
    repeat split; try discriminate; right; right; left; auto. }
  split; [reflexivity|right]; repeat split.
  intros [K | [K | [K | []]]]; symmetry in K;
    apply gostring_eqb_eq in K; congruence.
Qed.

(** ** Claims on the provider layer *)

(** The test [resp.StatusCode >= 400]. *)
Lemma status_test (statusCode : Z) :
  (400 <= statusCode)%Z -> (statusCode >=? 400)%Z = true.
Proof. intros H; rewrite Z.geb_leb; apply Z.leb_le; exact H. Qed.

(** C7. Whatever the provider and whatever the parsers would make of the
    body, a status of 400 or more makes the decode step fail with the
    HTTP-status error that carries the code and the body as read; no
    parser is consulted. *)
Theorem http_status_precedence (w : World) (provider : gostring)
  (statusCode : Z) (body : gostring) :
  (400 <= statusCode)%Z ->
  decodeResponse w provider statusCode body
    = inl (HTTPStatus statusCode body).
Proof.
  intros H; unfold decodeResponse.
  rewrite (status_test statusCode H); reflexivity.
Qed.

Lemma http_status_precedence_witness :
  decodeResponse (sampleWorld 503) (lit "ollama") 503 (lit "{}")
    = inl (HTTPStatus 503 (lit "{}"))
  /\ decodeResponse (sampleWorld 503) (lit "ollama") 200 (lit "{}")
    = inr (lit "ls -la").
Proof.
  split.
  - apply (http_status_precedence (sampleWorld 503) (lit "ollama") 503
             (lit "{}")); lia.
  - reflexivity.
Defined.

(** The same through the whole call: once the provider is a supported
    one and the exchange yields a response, a status of 400 or more is
    what callAIAPI returns. *)
Lemma callAIAPI_http_status (w : World) (env : Env) (prompt : gostring)
  (payload : Json) (endpoint jsonData body : gostring) (resp : HTTPResponse) :
  buildRequest (getAIConfig env) prompt = inr (payload, endpoint) ->
  json_Marshal w payload = inr jsonData ->
  http_NewRequest_error w (lit "POST") endpoint = None ->
  client_Do w (setHeaders (getAIConfig env)
                 (mkRequest (lit "POST") endpoint jsonData [])) = inr resp ->
  ReadAll resp = inr body ->
  (400 <= StatusCode resp)%Z ->
  snd (callAIAPI w env prompt) = inl (HTTPStatus (StatusCode resp) body).
Proof.
  intros Hb Hm Hn Hd Hr Hs; unfold callAIAPI, exchange.
  rewrite Hb, Hm, Hn; cbn [snd]; rewrite Hd; cbn [wrap bind].
  rewrite Hr; cbn [wrap bind].
  unfold decodeResponse; rewrite (status_test _ Hs); reflexivity.
Qed.

(** C8. getAIConfig is a total function of the environment.  A provider
    value that is set and is none of the three is kept as it is (no
    endpoint, key or model is resolved for it), and callAIAPI returns the
    unsupported-provider error carrying that value without any request
    handed to the HTTP client. *)
Theorem unsupported_provider (w : World) (env : Env) (prompt p : gostring) :
  env (lit "AI_PROVIDER") = Some p -> p <> [] ->
  p <> lit "openai" -> p <> lit "gemini" -> p <> lit "ollama" ->
  getAIConfig env = mkAIConfig p [] [] [] /\
  buildRequest (getAIConfig env) prompt = inl (UnsupportedProvider p) /\
  callAIAPI w env prompt = ([], inl (UnsupportedProvider p)).
Proof.
  intros E Hne H1 H2 H3.
  assert (C : getAIConfig env = mkAIConfig p [] [] []).
  { unfold getAIConfig.
    rewrite (getEnvOrDefault_set env _ p _ E Hne); cbn [Provider].
    rewrite !gostring_eqb_neq by assumption; reflexivity. }
  assert (B : buildRequest (getAIConfig env) prompt
              = inl (UnsupportedProvider p)).
  { rewrite C; unfold buildRequest; cbn [Provider].
    rewrite !gostring_eqb_neq by assumption; reflexivity. }
  repeat split; [exact C | exact B |].
  unfold callAIAPI; rewrite B; reflexivity.
Qed.

Lemma unsupported_provider_witness :
  let env := env_of [(lit "AI_PROVIDER", lit "mistral");
                     (lit "AI_MODEL", lit "tiny")] in
  getAIConfig env = mkAIConfig (lit "mistral") [] [] [] /\
  buildRequest (getAIConfig env) (lit "listar archivos")
    = inl (UnsupportedProvider (lit "mistral")) /\
  callAIAPI (sampleWorld 200) env (lit "listar archivos")
    = ([], inl (UnsupportedProvider (lit "mistral"))).
Proof.
  apply (unsupported_provider (sampleWorld 200)
           (env_of [(lit "AI_PROVIDER", lit "mistral");
                    (lit "AI_MODEL", lit "tiny")])
           (lit "listar archivos") (lit "mistral"));
    [reflexivity | | | | ]; vm_compute; discriminate.
Defined.

(** C10. For the provider, endpoint and model settings a variable bound
    to the empty string resolves exactly as if it were not set: the
    configuration is the one of the environment without the binding, the
    setting takes the default of the resolved provider, the provider is
    never empty, and for each of the three providers neither the endpoint
    nor the model is.  (A provider outside the three has no defaults and
    no override is read for it.) *)
Theorem empty_override_is_absent (env : Env) (key : gostring) :
  In key [lit "AI_PROVIDER"; lit "AI_BASE_URL"; lit "AI_MODEL"] ->
  env key = Some [] ->
  let config := getAIConfig env in
  config = getAIConfig (unset key env) /\
  (key = lit "AI_PROVIDER" -> Provider config = lit "ollama") /\
  (key = lit "AI_BASE_URL" ->
     BaseURL config = defaultBaseURL (Provider config)) /\
  (key = lit "AI_MODEL" -> Model config = defaultModel (Provider config)) /\
  Provider config <> [] /\
  (supported (Provider config) ->
     BaseURL config <> [] /\ Model config <> []).
Proof.
  intros _ E config; subst config.
  destruct (getAIConfig_cases env) as [HP Hcases]; cbn zeta in HP, Hcases.
  split; [symmetry; apply getAIConfig_unset; exact E|].
  split.
  { intros ->; rewrite HP; apply getEnvOrDefault_empty; exact E. }
  assert (Pne : Provider (getAIConfig env) <> []).
  { rewrite HP; apply getEnvOrDefault_nonempty; discriminate. }
  rewrite <- HP in Hcases.
  destruct Hcases as [[Hs [HB [HM [DB DM]]]] | [Hs [HC [DB DM]]]].
  - repeat split.
    + intros ->; rewrite HB; apply getEnvOrDefault_empty; exact E.
    + intros ->; rewrite HM; apply getEnvOrDefault_empty; exact E.
    + exact Pne.
    + rewrite HB; apply getEnvOrDefault_nonempty; exact DB.
    + rewrite HM; apply getEnvOrDefault_nonempty; exact DM.
  - repeat split.
    + intros _; rewrite DB, HC; reflexivity.
    + intros _; rewrite DM, HC; reflexivity.
    + exact Pne.
    + contradiction.
    + contradiction.
Qed.

Lemma empty_override_is_absent_witness :
  let env := env_of [(lit "AI_PROVIDER", lit "gemini");
                     (lit "AI_MODEL", [])] in
  getAIConfig env = getAIConfig (unset (lit "AI_MODEL") env) /\
  Model (getAIConfig env) = lit "gemini-pro".
Proof.
  pose proof (empty_override_is_absent
                (env_of [(lit "AI_PROVIDER", lit "gemini");
                         (lit "AI_MODEL", [])])
                (lit "AI_MODEL")
                (or_intror (or_intror (or_introl eq_refl))) eq_refl)
    as [H1 [_ [_ [H4 _]]]].
  split; [exact H1 | exact (H4 eq_refl)].
Defined.

(** ** The orchestrator *)

(** A blank text is sanitized to the empty string. *)
Lemma sanitize_blank (text : gostring) :
  blank text = true -> sanitizeCommand text = [].
Proof.
  intros B; rewrite sanitizeCommand_unfold.
  rewrite (TrimSpace_blank text B).
  unfold firstCandidate, getFirstNonEmptyLine.
  assert (K : forall l, In l (Strings.Split text nl) -> Strings.TrimSpace l = []).
  { intros l Hin; apply TrimSpace_blank.
    unfold blank in *; rewrite forallb_forall in *.
    intros x Hx; apply B; eapply infix_of_In; [|exact Hx].
    eapply Split_infix; exact Hin. }
  cbn.
  induction (Strings.Split text nl) as [|l ls IH]; [reflexivity|].
  cbn [map find firstNonEmpty].
  rewrite (K l (or_introl eq_refl)); cbn.
  apply IH; intros l' Hin; apply K; right; exact Hin.
Qed.

(** Once the provider has answered, the no-command error is reported
    exactly when the answer is sanitized to the empty string, and the raw
    answer is returned either way. *)
Lemma TranslateToCommand_answer (w : World) (env : Env)
  (userText rawResponse : gostring) :
  snd (callAIAPI w env userText) = inr rawResponse ->
  fst (fst (TranslateToCommand w env userText)) = rawResponse /\
  snd (fst (TranslateToCommand w env userText)) = sanitizeCommand rawResponse /\
  (snd (TranslateToCommand w env userText) = Some NoCommandExtracted
   <-> sanitizeCommand rawResponse = []).
Proof.
  intros H; unfold TranslateToCommand; rewrite H.
  destruct (sanitizeCommand rawResponse) as [|c r]; cbn.
  - repeat split; reflexivity.
  - repeat split; discriminate.
Qed.

(** * Further properties of the code *)

(** ** Matches are pieces of the text *)

Lemma infix_of_refl (s : gostring) : infix_of s s.
Proof. exists [], []; rewrite app_nil_r; reflexivity. Qed.

Lemma infix_of_app_l (a x y : gostring) : infix_of a x -> infix_of a (x ++ y).
Proof.
  intros [p [q ->]]; exists p, (q ++ y); rewrite <- !app_assoc; reflexivity.
Qed.

Lemma infix_of_app_r (a x y : gostring) : infix_of a y -> infix_of a (x ++ y).
Proof.
  intros [p [q ->]]; exists (x ++ p), q; rewrite <- !app_assoc; reflexivity.
Qed.

Lemma infix_of_skipn (n : nat) (s : gostring) : infix_of (skipn n s) s.
Proof.
  exists (firstn n s), []; rewrite app_nil_r, firstn_skipn; reflexivity.
Qed.

Lemma extends_refl (t : thread) : extends t t.
Proof.
  exists []; simpl; rewrite Nat.add_0_r; auto.
Qed.

Lemma extends_trans (t u v : thread) :
  extends t u -> extends u v -> extends t v.
Proof.
  intros [m1 [R1 [P1 G1]]] [m2 [R2 [P2 G2]]].
  exists (m1 ++ m2); repeat split.
  - rewrite R1, R2, app_assoc; reflexivity.
  - rewrite P2, P1, length_app; lia.
  - destruct G2 as [G2 | G2].
    + rewrite G2; destruct G1 as [G1 | G1]; [left; exact G1|].
      right; apply infix_of_app_l; exact G1.
    + right; apply infix_of_app_r; exact G2.
Qed.

Lemma one_extends (k : cls) (t : thread) (cont : K) (res : thread) :
  one k t cont = Some res -> exists u, extends t u /\ cont u = Some res.
Proof.
  unfold one; destruct t as [p s g]; cbn [rest pos group1].
  destruct s as [|x xs]; [discriminate|].
  destruct (cls_match k x); [|discriminate].
  intros H; exists (Thread (S p) xs g); split; [|exact H].
  exists [x]; cbn; repeat split; [lia | left; reflexivity].
Qed.

Lemma star_greedy_extends (k : cls) (s : gostring) (p : nat) (g : gostring)
  (cont : K) (res : thread) :
  star_greedy k p s g cont = Some res ->
  exists u, extends (Thread p s g) u /\ cont u = Some res.
Proof.
  revert p; induction s as [|x xs IH]; intros p; cbn [star_greedy].
  - intros H; exists (Thread p [] g); split; [apply extends_refl | exact H].
  - destruct (cls_match k x).
    + destruct (star_greedy k (S p) xs g cont) as [r|] eqn:E; cbn [orelse].
      * intros H; injection H as ->.
        destruct (IH (S p) E) as [u [Hu Hc]].
        exists u; split; [|exact Hc].
        eapply extends_trans; [|exact Hu].
        exists [x]; cbn; repeat split; [lia | left; reflexivity].
      * intros H; exists (Thread p (x :: xs) g); split;
          [apply extends_refl | exact H].
    + intros H; exists (Thread p (x :: xs) g); split;
        [apply extends_refl | exact H].
Qed.

Lemma star_lazy_extends (k : cls) (s : gostring) (p : nat) (g : gostring)
  (cont : K) (res : thread) :
  star_lazy k p s g cont = Some res ->
  exists u, extends (Thread p s g) u /\ cont u = Some res.
Proof.
  revert p; induction s as [|x xs IH]; intros p; cbn [star_lazy].
  - destruct (cont (Thread p [] g)) as [r|] eqn:E; cbn [orelse];
      [|discriminate].
    intros H; injection H as ->.
    exists (Thread p [] g); split; [apply extends_refl | exact E].
  - destruct (cont (Thread p (x :: xs) g)) as [r|] eqn:E; cbn [orelse].
    + intros H; injection H as ->.
      exists (Thread p (x :: xs) g); split; [apply extends_refl | exact E].
    + destruct (cls_match k x); [|discriminate].
      intros H; destruct (IH (S p) H) as [u [Hu Hc]].
      exists u; split; [|exact Hc].
      eapply extends_trans; [|exact Hu].
      exists [x]; cbn; repeat split; [lia | left; reflexivity].
Qed.

(** Whatever the expression, a successful run hands the continuation a
    thread that lies further in the same text. *)
Lemma run_extends (r : regex) :
  forall (t : thread) (cont : K) (res : thread),
    run r t cont = Some res ->
    exists u, extends t u /\ cont u = Some res.
Proof.
  induction r as [k | s | | a IHa b IHb | a IHa b IHb | a IHa | k | k | k
                  | a IHa]; intros t cont res; cbn [run].
  - apply one_extends.
  - destruct (Strings.HasPrefix (rest t) s) eqn:E; [|discriminate].
    intros H; eexists; split; [|exact H].
    exists s; cbn [rest pos group1]; repeat split; [|left; reflexivity].
    apply HasPrefix_true; exact E.
  - destruct (Nat.eqb (pos t) 0); [|discriminate].
    intros H; exists t; split; [apply extends_refl | exact H].
  - intros H; destruct (IHa _ _ _ H) as [u [Hu Hb]].
    destruct (IHb _ _ _ Hb) as [v [Hv Hc]].
    exists v; split; [eapply extends_trans; eauto | exact Hc].
  - destruct (run a t cont) as [x|] eqn:E; cbn [orelse].
    + intros H; injection H as ->; apply IHa; exact E.
    + apply IHb.
  - destruct (run a t cont) as [x|] eqn:E; cbn [orelse].
    + intros H; injection H as ->; apply IHa; exact E.
    + intros H; exists t; split; [apply extends_refl | exact H].
  - destruct t as [p s g]; apply star_greedy_extends.
  - destruct t as [p s g]; apply star_lazy_extends.
  - intros H; apply one_extends in H as [u [Hu H]].
    destruct u as [p s g]; cbn [pos rest group1] in H.
    apply star_greedy_extends in H as [v [Hv H]].
    exists v; split; [eapply extends_trans; eauto | exact H].
  - intros H; apply IHa in H as [u [[mid [R [P G]]] H]].
    eexists; split; [|exact H].
    exists mid; cbn [pos rest group1]; repeat split; [exact R | exact P |].
    right; rewrite P, R.
    replace (pos t + length mid - pos t) with (length mid) by lia.
    rewrite firstn_app, Nat.sub_diag, firstn_all; cbn [firstn].
    rewrite app_nil_r; apply infix_of_refl.
Qed.

Lemma match_at_pieces (r : regex) (p : nat) (s whole g : gostring) :
  match_at r p s = Some (whole, g) ->
  (exists tail, s = whole ++ tail) /\ infix_of g whole.
Proof.
  unfold match_at.
  destruct (run r (Thread p s []) Some) as [t|] eqn:E; [|discriminate].
  intros H; injection H as <- <-.
  apply run_extends in E as [u [[mid [R [P G]]] H]].
  injection H as ->; cbn [pos rest group1] in *.
  rewrite P, R.
  replace (p + length mid - p) with (length mid) by lia.
  rewrite firstn_app, Nat.sub_diag, firstn_all; cbn [firstn].
  rewrite app_nil_r; split; [eauto|].
  destruct G as [-> | G]; [apply infix_of_nil | exact G].
Qed.

Lemma search_pieces (r : regex) (s : gostring) (p : nat) (whole g : gostring) :
  search r p s = Some (whole, g) -> infix_of whole s /\ infix_of g whole.
Proof.
  revert p; induction s as [|c s IH]; intros p; cbn [search].
  - destruct (match_at r p []) as [[w' g']|] eqn:E; [|discriminate].
    intros H; injection H as -> ->.
    apply match_at_pieces in E as [[tail E] G].
    split; [exists [], tail; exact E | exact G].
  - destruct (match_at r p (c :: s)) as [[w' g']|] eqn:E.
    + intros H; injection H as -> ->.
      apply match_at_pieces in E as [[tail E] G].
      split; [exists [], tail; exact E | exact G].
    + intros H; apply IH in H as [Hw Hg].
      split; [apply infix_of_cons; exact Hw | exact Hg].
Qed.

(** What FindStringSubmatch returns is cut out of the text, and group 1
    out of the match. *)
Lemma FindStringSubmatch_pieces (r : regex) (s whole g : gostring) :
  FindStringSubmatch r s = [whole; g] ->
  infix_of whole s /\ infix_of g whole.
Proof.
  unfold FindStringSubmatch.
  destruct (search r 0 s) as [[w' g']|] eqn:E; [|discriminate].
  intros H; injection H as -> ->; eapply search_pieces; exact E.
Qed.

Lemma stripMarker_infix (l : gostring) : infix_of (stripMarker l) l.
Proof.
  unfold stripMarker.
  destruct (Strings.HasPrefix l (lit "$")); [apply infix_of_skipn|].
  destruct (Strings.HasPrefix l (lit "neri>")); [apply infix_of_skipn|].
  destruct (Strings.HasPrefix l (lit "Emiliano>")); [apply infix_of_skipn|].
  apply infix_of_refl.
Qed.

Lemma firstCandidate_line (text l : gostring) :
  firstCandidate text = Some l ->
  l <> [] /\ no_outer_space l /\ commandLike l = true /\
  exists line, In line (Strings.Split text nl) /\ l = Strings.TrimSpace line.
Proof.
  rewrite firstCandidate_nonblank; intros H.
  apply find_some in H as [Hin Hc].
  apply nonblank_lines_spec in Hin as [Hne [Hl Hline]]; auto.
Qed.

(** The result is cut out of the trimmed text. *)
Lemma sanitizeCommand_piece (raw : gostring) :
  infix_of (sanitizeCommand raw) (Strings.TrimSpace raw).
Proof.
  rewrite sanitizeCommand_unfold.
  destruct (FindStringSubmatch_cases backtickRegex (Strings.TrimSpace raw))
    as [E | [whole [g E]]]; rewrite E.
  2:{ apply FindStringSubmatch_pieces in E as [Hw Hg].
      eapply infix_of_trans; [apply getFirstNonEmptyLine_infix|].
      eapply infix_of_trans; [apply TrimSpace_infix|].
      eapply infix_of_trans; [exact Hg | exact Hw]. }
  destruct (FindStringSubmatch_cases inlineRegex (Strings.TrimSpace raw))
    as [E' | [whole [g E']]]; rewrite E'.
  2:{ apply FindStringSubmatch_pieces in E' as [Hw Hg].
      eapply infix_of_trans; [apply TrimSpace_infix|].
      eapply infix_of_trans; [exact Hg | exact Hw]. }
  rewrite <- firstCandidate_TrimSpace, <- getFirstNonEmptyLine_TrimSpace.
  destruct (firstCandidate (Strings.TrimSpace raw)) as [l|] eqn:Ec;
    [|apply getFirstNonEmptyLine_infix].
  apply firstCandidate_line in Ec as [_ [Hl [_ [line [Hin ->]]]]].
  eapply infix_of_trans; [apply TrimSpace_infix|].
  rewrite (strip_prompt _ Hl); fold (stripMarker (Strings.TrimSpace line)).
  eapply infix_of_trans; [apply stripMarker_infix|].
  eapply infix_of_trans; [apply TrimSpace_infix|].
  eapply Split_infix; exact Hin.
Qed.

(** X1. The sanitizer never makes text up: its result is a contiguous piece
    of the text it was given. *)
Theorem sanitize_infix (raw : gostring) : infix_of (sanitizeCommand raw) raw.
Proof.
  destruct (TrimSpace_decompose raw) as [a [b [E _]]].
  destruct (sanitizeCommand_piece raw) as [x [y P]].
  exists (a ++ x), (y ++ b).
  rewrite E at 1; rewrite P, <- !app_assoc; reflexivity.
Qed.

(** ** White space around the text *)

Lemma TrimSpace_surround (a t b : gostring) :
  blank a = true -> blank b = true ->
  Strings.TrimSpace (a ++ t ++ b) = Strings.TrimSpace t.
Proof.
  intros Ba Bb.
  destruct (TrimSpace_decompose t) as [a' [b' [E [Ba' Bb']]]].
  rewrite E at 1.
  replace (a ++ (a' ++ Strings.TrimSpace t ++ b') ++ b)
    with ((a ++ a') ++ Strings.TrimSpace t ++ (b' ++ b))
    by (rewrite <- !app_assoc; reflexivity).
  apply TrimSpace_unique.
  - rewrite blank_app, Ba, Ba'; reflexivity.
  - rewrite blank_app, Bb, Bb'; reflexivity.
  - apply TrimSpace_no_outer_space.
Qed.

(** X2. White space and blank lines before and after the text do not change
    the result. *)
Theorem sanitize_surrounding_space (a text b : gostring) :
  blank a = true -> blank b = true ->
  sanitizeCommand (a ++ text ++ b) = sanitizeCommand text.
Proof.
  intros Ba Bb; unfold sanitizeCommand.
  rewrite (TrimSpace_surround a text b Ba Bb); reflexivity.
Qed.

Lemma sanitize_surrounding_space_witness :
  sanitizeCommand (lit "\n\n  " ++ lit "ls -la" ++ lit "  \n")
  = sanitizeCommand (lit "ls -la").
Proof.
  apply (sanitize_surrounding_space (lit "\n\n  ") (lit "ls -la")
           (lit "  \n")); reflexivity.
Defined.

(** ** Text without backticks *)

(** Without a backtick neither code pattern finds a match. *)
Lemma sanitizeCommand_no_backtick (text : gostring) :
  ~ In backtick text ->
  sanitizeCommand text =
  match firstCandidate text with
  | Some l => Strings.TrimSpace (ReplaceAllString_empty promptRegex l)
  | None => getFirstNonEmptyLine text
  end.
Proof.
  intros Hbt.
  assert (Hbt' : ~ In backtick (Strings.TrimSpace text)).
  { intros K; apply Hbt; eapply infix_of_In; [apply TrimSpace_infix|exact K]. }
  rewrite sanitizeCommand_unfold; unfold FindStringSubmatch.
  rewrite (search_backtickRegex_none 0 _ Hbt').
  rewrite (search_inlineRegex_none 0 _ Hbt').
  reflexivity.
Qed.

(** On the line case 3 picks, the replacement removes one marker. *)
Lemma strip_candidate (text l : gostring) :
  firstCandidate text = Some l ->
  ReplaceAllString_empty promptRegex l = stripMarker l.
Proof.
  intros Ec; apply firstCandidate_line in Ec as [_ [Hl _]].
  apply (strip_prompt l Hl).
Qed.



(** ** The explanation test *)

Lemma search_Bol_later (r : regex) (s : gostring) (p : nat) :
  search (Seq Bol r) (S p) s = None.
Proof.
  revert p; induction s as [|c s IH]; intros p; cbn [search].
  - reflexivity.
  - change (match_at (Seq Bol r) (S p) (c :: s)) with
      (@None (gostring * gostring)).
    apply IH.
Qed.

Lemma MatchString_anchored (phrase s : gostring) :
  MatchString (Seq Bol (Str phrase)) s = Strings.HasPrefix s phrase.
Proof.
  unfold MatchString.
  assert (M : match_at (Seq Bol (Str phrase)) 0 s
              = if Strings.HasPrefix s phrase
                then Some (firstn (length phrase) s, []) else None).
  { unfold match_at; cbn [run pos rest group1 Nat.eqb].
    destruct (Strings.HasPrefix s phrase); [|reflexivity].
    cbn [pos group1]; rewrite Nat.sub_0_r; reflexivity. }
  destruct s as [|c s]; cbn [search]; rewrite M.
  - destruct (Strings.HasPrefix [] phrase); reflexivity.
  - destruct (Strings.HasPrefix (c :: s) phrase); [reflexivity|].
    rewrite search_Bol_later; reflexivity.
Qed.

(** X4. A line looks like an explanation exactly when, in lower case, it
    starts with one of the nine phrases. *)
Theorem looksLikeExplanation_prefix (line : gostring) :
  looksLikeExplanation line
  = existsb (Strings.HasPrefix (Strings.ToLower line)) explanationPhrases.
Proof.
  unfold looksLikeExplanation, explanationPatterns, explanationPhrases.
  cbn [existsb]; rewrite !MatchString_anchored; reflexivity.
Qed.

(** ** Prompt markers and explanation lines *)

Lemma Split_app_sep (a b : gostring) (sep : rune) :
  ~ In sep a ->
  Strings.Split (a ++ sep :: b) sep = a :: Strings.Split b sep.
Proof.
  induction a as [|c a IH]; intros H.
  - apply Split_cons_sep.
  - cbn [app]; apply Split_cons_other.
    + intros ->; apply H; left; reflexivity.
    + apply IH; intros K; apply H; right; exact K.
Qed.

Lemma TrimSpace_TrimRight (s : gostring) :
  Strings.TrimSpace (Strings.TrimRightFunc Unicode.IsSpace s)
  = Strings.TrimSpace s.
Proof.
  destruct (TrimRightFunc_decompose Unicode.IsSpace s) as [ws [E B]].
  rewrite E at 2.
  symmetry; apply (TrimSpace_surround [] _ ws eq_refl B).
Qed.

Lemma not_explanation_marker (m x : gostring) :
  In m [lit "$"; lit "neri>"; lit "Emiliano>"] ->
  looksLikeExplanation (m ++ x) = false.
Proof.
  intros Hm; unfold looksLikeExplanation, explanationPatterns.
  cbn [existsb]; rewrite !MatchString_anchored.
  unfold Strings.ToLower; rewrite map_app.
  destruct Hm as [<- | [<- | [<- | []]]]; reflexivity.
Qed.

Lemma stripMarker_marker (m x : gostring) :
  In m [lit "$"; lit "neri>"; lit "Emiliano>"] -> stripMarker (m ++ x) = x.
Proof.
  intros Hm; unfold stripMarker.
  destruct Hm as [<- | [<- | [<- | []]]]; reflexivity.
Qed.

Lemma marker_shape (m : gostring) :
  In m [lit "$"; lit "neri>"; lit "Emiliano>"] ->
  m <> [] /\ no_outer_space m /\ ~ In nl m /\ ~ In backtick m.
Proof.
  assert (NoIn : forall (x : rune) (s : gostring),
            forallb (fun y => negb (x =? y)%N) s = true -> ~ In x s).
  { intros x s H K; rewrite forallb_forall in H; specialize (H x K).
    rewrite N.eqb_refl in H; discriminate. }
  intros [<- | [<- | [<- | []]]].
  - split; [discriminate|]; split;
      [exact (TrimSpace_no_outer_space (lit "$"))|].
    split; apply NoIn; reflexivity.
  - split; [discriminate|]; split;
      [exact (TrimSpace_no_outer_space (lit "neri>"))|].
    split; apply NoIn; reflexivity.
  - split; [discriminate|]; split;
      [exact (TrimSpace_no_outer_space (lit "Emiliano>"))|].
    split; apply NoIn; reflexivity.
Qed.

(** X5. A command of one line behind a prompt marker ([$], [neri>], which is
    the shell's own prompt, or [Emiliano>]) is recovered: the marker goes
    and the rest is trimmed. *)
Theorem sanitize_prompt_marker (m cmd : gostring) :
  In m [lit "$"; lit "neri>"; lit "Emiliano>"] ->
  ~ In nl cmd -> ~ In backtick cmd ->
  sanitizeCommand (m ++ cmd) = Strings.TrimSpace cmd.
Proof.
  intros Hm Hnl Hbt.
  destruct (marker_shape m Hm) as [Mne [Mtrim [Mnl Mbt]]].
  rewrite sanitizeCommand_no_backtick.
  2:{ intros K; apply in_app_or in K as [K | K]; auto. }
  unfold firstCandidate; rewrite Split_single.
  2:{ intros K; apply in_app_or in K as [K | K]; auto. }
  cbn [map find].
  pose proof (strip_prompt _ (TrimSpace_no_outer_space (m ++ cmd))) as S.
  fold (stripMarker (Strings.TrimSpace (m ++ cmd))) in S.
  rewrite (TrimSpace_keep_front m cmd Mne Mtrim) in *.
  unfold commandLike; rewrite (not_explanation_marker m _ Hm).
  destruct m as [|c m]; [contradiction|]; cbn [app is_empty negb andb].
  change (c :: m ++ Strings.TrimRightFunc Unicode.IsSpace cmd)
    with ((c :: m) ++ Strings.TrimRightFunc Unicode.IsSpace cmd).
  rewrite S, (stripMarker_marker (c :: m) _ Hm); apply TrimSpace_TrimRight.
Qed.

Lemma sanitize_prompt_marker_witness :
  sanitizeCommand (Shell.displayPrompt Shell.NewMiniShell ++ lit "ls -la ")
  = lit "ls -la".
Proof.
  apply (sanitize_prompt_marker (lit "neri>") (lit " ls -la ")).
  - right; left; reflexivity.
  - vm_compute; intros K;
      repeat (destruct K as [K|K]; [discriminate|]); exact K.
  - vm_compute; intros K;
      repeat (destruct K as [K|K]; [discriminate|]); exact K.
Defined.

(** X6. A first line that is blank or looks like an explanation is passed
    over when a command-like line follows: the text is sanitized as if it
    started after that line. *)
Theorem sanitize_skips_explanation (first more l : gostring) :
  ~ In nl first -> ~ In backtick first -> ~ In backtick more ->
  commandLike (Strings.TrimSpace first) = false ->
  firstCandidate more = Some l ->
  sanitizeCommand (first ++ nl :: more) = sanitizeCommand more.
Proof.
  intros Hnl Hb1 Hb2 Hfirst Hc.
  assert (E : firstCandidate (first ++ nl :: more) = firstCandidate more).
  { unfold firstCandidate; rewrite (Split_app_sep first more nl Hnl).
    cbn [map find]; rewrite Hfirst; reflexivity. }
  rewrite !sanitizeCommand_no_backtick;
    [rewrite E, Hc; reflexivity | exact Hb2 |].
  intros K; apply in_app_or in K as [K | [K | K]]; auto; discriminate K.
Qed.

Lemma sanitize_skips_explanation_witness :
  sanitizeCommand (lit "This will list files" ++ nl :: lit "ls -la")
  = sanitizeCommand (lit "ls -la").
Proof.
  apply (sanitize_skips_explanation (lit "This will list files")
           (lit "ls -la") (lit "ls -la"));
    try reflexivity;
    vm_compute; intros K;
    repeat (destruct K as [K|K]; [discriminate|]); exact K.
Defined.

(** ** When the result is empty *)

Lemma blank_nonblank_lines (text : gostring) :
  blank text = true -> nonblank_lines text = [].
Proof.
  intros B; rewrite <- nonblank_lines_TrimSpace, (TrimSpace_blank text B).
  reflexivity.
Qed.

Lemma stripMarker_bare (l : gostring) :
  bare_prompt l -> Strings.TrimSpace (stripMarker l) = [].
Proof. intros [-> | [-> | ->]]; reflexivity. Qed.

(** X7. For a text without backticks the result is empty in two cases only:
    the text is blank, or the line chosen is a prompt marker and nothing
    else. *)
Theorem sanitize_plain_empty (text : gostring) :
  ~ In backtick text ->
  (sanitizeCommand text = [] <->
   blank text = true \/
   exists l, firstCandidate text = Some l /\ bare_prompt l).
Proof.
  intros Hbt; rewrite (sanitizeCommand_no_backtick text Hbt); split.
  - destruct (firstCandidate text) as [l|] eqn:Ec.
    + intros H; right; exists l; split; [reflexivity|].
      apply firstCandidate_line in Ec as [Hne [Hl _]].
      apply strip_prompt_blank; assumption.
    + intros H; left.
      destruct (blank text) eqn:B; [reflexivity|exfalso].
      apply (getFirstNonEmptyLine_nonempty text); [|exact H].
      intros K; apply nonblank_lines_nil_blank in K; congruence.
  - intros [B | [l [Ec Hl]]].
    + rewrite firstCandidate_nonblank, (blank_nonblank_lines text B).
      cbn [find]; rewrite getFirstNonEmptyLine_hd.
      rewrite (blank_nonblank_lines text B); reflexivity.
    + rewrite Ec, (strip_candidate text l Ec).
      apply stripMarker_bare; exact Hl.
Qed.

Lemma sanitize_plain_empty_witness :
  sanitizeCommand (lit "Usa esto:\n$\nls") = [] <->
  blank (lit "Usa esto:\n$\nls") = true \/
  exists l, firstCandidate (lit "Usa esto:\n$\nls") = Some l /\ bare_prompt l.
Proof.
  apply (sanitize_plain_empty (lit "Usa esto:\n$\nls")).
  vm_compute; intros K;
    repeat (destruct K as [K|K]; [discriminate|]); exact K.
Defined.

Lemma sanitize_one_line_witness :
  ~ In nl (sanitizeCommand (lit "Para listar:\nls -la\npwd")).
Proof.
  apply (sanitize_one_line (lit "Para listar:\nls -la\npwd")).
  right; reflexivity.
Defined.

(** ** Inline spans *)

Lemma TrimSpace_keep_middle (pre x post : gostring) :
  x <> [] -> no_outer_space x ->
  Strings.TrimSpace (pre ++ x ++ post)
  = Strings.TrimLeftFunc Unicode.IsSpace pre ++ x
      ++ Strings.TrimRightFunc Unicode.IsSpace post.
Proof.
  intros Hx [Hhd Hlast].
  destruct (TrimLeftFunc_decompose Unicode.IsSpace pre) as [wa [Ea Ba]].
  destruct (TrimRightFunc_decompose Unicode.IsSpace post) as [wb [Eb Bb]].
  set (pre' := Strings.TrimLeftFunc Unicode.IsSpace pre) in *.
  set (post' := Strings.TrimRightFunc Unicode.IsSpace post) in *.
  rewrite Ea at 1; rewrite Eb at 1.
  replace ((wa ++ pre') ++ x ++ post' ++ wb)
    with (wa ++ (pre' ++ x ++ post') ++ wb)
    by (rewrite <- !app_assoc; reflexivity).
  apply TrimSpace_unique; [exact Ba | exact Bb |]; split.
  - intros c r E; destruct pre' as [|d pre''] eqn:Ep.
    + cbn [app] in E; destruct x as [|e x']; [contradiction|].
      injection E as <- _; apply (Hhd e x' eq_refl).
    + injection E as <- _.
      apply (TrimLeftFunc_head Unicode.IsSpace pre d pre'' Ep).
  - intros c r E.
    destruct (snoc_cases post') as [En | [r' [d Ed]]].
    + rewrite En, app_nil_r in E.
      destruct (snoc_cases x) as [Ex | [x' [e Ex]]]; [contradiction|].
      rewrite Ex, app_assoc in E; apply app_inj_tail in E as [_ <-].
      apply (Hlast e x' Ex).
    + rewrite Ed, !app_assoc in E; apply app_inj_tail in E as [_ <-].
      apply (TrimRightFunc_last Unicode.IsSpace post d r' Ed).
Qed.

Lemma search_skip (r : regex) (pre s : gostring) (p : nat) :
  (forall i x tl, skipn i pre = x :: tl ->
     match_at r (p + i) (skipn i pre ++ s) = None) ->
  search r p (pre ++ s) = search r (p + length pre) s.
Proof.
  revert p; induction pre as [|c pre IH]; intros p H.
  - cbn; rewrite Nat.add_0_r; reflexivity.
  - cbn [app search].
    pose proof (H 0 c pre eq_refl) as H0.
    rewrite Nat.add_0_r in H0; cbn [skipn app] in H0; rewrite H0.
    rewrite IH; [cbn [length]; rewrite Nat.add_succ_r; reflexivity|].
    intros i x tl E; specialize (H (S i) x tl E).
    rewrite Nat.add_succ_r in H; exact H.
Qed.

Lemma star_greedy_scan (k : cls) (body tail : gostring) (p : nat)
  (g : gostring) (cont : K) (res : thread) :
  (forall x, In x body -> cls_match k x = true) ->
  (forall y tl, tail = y :: tl -> cls_match k y = false) ->
  cont (Thread (p + length body) tail g) = Some res ->
  star_greedy k p (body ++ tail) g cont = Some res.
Proof.
  revert p; induction body as [|x body IH]; intros p Hb Ht Hc.
  - cbn [app length] in *; rewrite Nat.add_0_r in Hc.
    destruct tail as [|y tl]; cbn [star_greedy]; [exact Hc|].
    rewrite (Ht y tl eq_refl); exact Hc.
  - cbn [app star_greedy]; rewrite (Hb x (or_introl eq_refl)).
    rewrite IH; [reflexivity | | exact Ht |].
    + intros y Hy; apply Hb; right; exact Hy.
    + cbn [length] in Hc; rewrite Nat.add_succ_r in Hc; exact Hc.
Qed.

Lemma match_at_inline_span (p : nat) (cmd post : gostring) :
  cmd <> [] -> ~ In backtick cmd ->
  match_at inlineRegex p (backtick :: cmd ++ backtick :: post)
  = Some (backtick :: cmd ++ [backtick], cmd).
Proof.
  intros Hne Hbt; destruct cmd as [|c cmd]; [contradiction|].
  assert (Hc : (c =? backtick)%N = false).
  { apply N.eqb_neq; intros ->; apply Hbt; left; reflexivity. }
  unfold match_at, inlineRegex; cbn [run]; unfold one at 1.
  cbn [rest pos group1 cls_match]; rewrite N.eqb_refl.
  unfold one at 1; cbn [rest pos group1 cls_match app]; rewrite Hc.
  cbn [negb pos rest group1].
  rewrite (star_greedy_scan (Not backtick) cmd (backtick :: post) (S (S p)) []
             _ (Thread (S (S (S p)) + length cmd) post (c :: cmd))).
  - cbn [pos group1].
    replace (S (S (S p)) + length cmd - p) with (length (backtick :: c :: cmd ++ [backtick]))
      by (cbn [length]; rewrite length_app; cbn [length]; lia).
    replace (backtick :: c :: cmd ++ backtick :: post)
      with ((backtick :: c :: cmd ++ [backtick]) ++ post)
      by (cbn [app]; rewrite <- app_assoc; reflexivity).
    rewrite firstn_app, Nat.sub_diag, firstn_all; cbn [firstn].
    rewrite app_nil_r; reflexivity.
  - intros x Hx; cbn [cls_match]; apply negb_true_iff, N.eqb_neq.
    intros ->; apply Hbt; right; exact Hx.
  - intros y tl E; injection E as <- _; cbn [cls_match].
    rewrite N.eqb_refl; reflexivity.
  - unfold one; cbn [rest pos group1 cls_match]; rewrite N.eqb_refl.
    replace (S (S p) + length cmd - S p) with (length (c :: cmd))
      by (cbn [length]; lia).
    change (c :: cmd ++ backtick :: post) with ((c :: cmd) ++ backtick :: post).
    rewrite firstn_app, Nat.sub_diag, firstn_all; cbn [firstn].
    rewrite app_nil_r. f_equal; f_equal; lia.
Qed.

Lemma ticks_app (a b : gostring) : ticks (a ++ b) = ticks a + ticks b.
Proof. apply count_occ_app. Qed.

Lemma ticks_none (s : gostring) : ~ In backtick s -> ticks s = 0.
Proof. intros H; apply count_occ_not_In; exact H. Qed.

Lemma match_at_backtickRegex_few (p : nat) (s : gostring) :
  ticks s < 3 -> match_at backtickRegex p s = None.
Proof.
  intros H; unfold match_at, backtickRegex; cbn [run rest].
  destruct (Strings.HasPrefix s (lit "```")) eqn:E; [|reflexivity].
  apply HasPrefix_true in E; rewrite E, ticks_app in H.
  cbn in H; lia.
Qed.

Lemma search_backtickRegex_few (s : gostring) (p : nat) :
  ticks s < 3 -> search backtickRegex p s = None.
Proof.
  revert p; induction s as [|c s IH]; intros p H; cbn [search];
    rewrite match_at_backtickRegex_few by exact H; [reflexivity|].
  apply IH; unfold ticks in *; cbn [count_occ] in H.
  destruct (N.eq_dec c backtick); lia.
Qed.

Lemma TrimLeftFunc_In (f : rune -> bool) (s : gostring) (x : rune) :
  In x (Strings.TrimLeftFunc f s) -> In x s.
Proof.
  destruct (TrimLeftFunc_decompose f s) as [ws [E _]].
  intros H; rewrite E; apply in_or_app; right; exact H.
Qed.

Lemma TrimRightFunc_In (f : rune -> bool) (s : gostring) (x : rune) :
  In x (Strings.TrimRightFunc f s) -> In x s.
Proof.
  destruct (TrimRightFunc_decompose f s) as [ws [E _]].
  intros H; rewrite E; apply in_or_app; left; exact H.
Qed.

(** X10. A text with one inline span and no other backtick: the result is the
    interior of the span, trimmed, whatever stands before and after it.
    The interior may run over several lines and is returned whole. *)
Theorem sanitize_inline_span (pre cmd post : gostring) :
  ~ In backtick pre -> ~ In backtick cmd -> ~ In backtick post ->
  cmd <> [] ->
  sanitizeCommand (pre ++ backtick :: cmd ++ backtick :: post)
  = Strings.TrimSpace cmd.
Proof.
  intros Hpre Hcmd Hpost Hne.
  set (span := backtick :: cmd ++ [backtick]).
  assert (Es : forall a b, a ++ backtick :: cmd ++ backtick :: b
                           = a ++ span ++ b).
  { intros a b; unfold span; cbn [app]; rewrite <- app_assoc; reflexivity. }
  assert (Hspan : span <> [] /\ no_outer_space span).
  { split; [discriminate|]; split.
    - intros c r E; injection E as <- _; reflexivity.
    - intros c r E; unfold span in E; rewrite app_comm_cons in E.
      apply app_inj_tail in E as [_ <-]; reflexivity. }
  rewrite sanitizeCommand_unfold, Es.
  rewrite (TrimSpace_keep_middle pre span post (proj1 Hspan) (proj2 Hspan)).
  set (pre' := Strings.TrimLeftFunc Unicode.IsSpace pre).
  set (post' := Strings.TrimRightFunc Unicode.IsSpace post).
  assert (Hpre' : ~ In backtick pre')
    by (intros K; apply Hpre; eapply TrimLeftFunc_In; exact K).
  assert (Hpost' : ~ In backtick post')
    by (intros K; apply Hpost; eapply TrimRightFunc_In; exact K).
  rewrite <- Es; unfold FindStringSubmatch.
  rewrite search_backtickRegex_few.
  2:{ rewrite ticks_app; cbn [ticks count_occ].
      destruct (N.eq_dec backtick backtick); [|congruence].
      fold (ticks (cmd ++ backtick :: post')); rewrite ticks_app.
      cbn [ticks count_occ].
      destruct (N.eq_dec backtick backtick); [|congruence].
      fold (ticks post') (ticks pre') (ticks cmd).
      rewrite !ticks_none by assumption; lia. }
  rewrite search_skip.
  - rewrite (search_here _ _ _ _
               (match_at_inline_span _ cmd post' Hne Hcmd)).
    reflexivity.
  - intros i x tl E; apply match_at_inlineRegex_none.
    intros r K; rewrite E in K; injection K as -> _.
    apply Hpre'; rewrite <- (firstn_skipn i pre'), E.
    apply in_or_app; right; left; reflexivity.
Qed.

Lemma sanitize_inline_span_witness :
  sanitizeCommand (lit "Usa `ls -la` para listar") = lit "ls -la".
Proof.
  apply (sanitize_inline_span (lit "Usa ") (lit "ls -la")
           (lit " para listar"));
    try discriminate;
    vm_compute; intros K;
    repeat (destruct K as [K|K]; [discriminate|]); exact K.
Defined.

(** ** Requests *)

Lemma buildRequest_error (config : AIConfig) (prompt : gostring)
  (e : CallError) :
  buildRequest config prompt = inl e ->
  e = UnsupportedProvider (Provider config) /\ ~ supported (Provider config).
Proof.
  unfold buildRequest, supported.
  destruct (gostring_eqb (Provider config) (lit "openai")) eqn:E1;
    [discriminate|].
  destruct (gostring_eqb (Provider config) (lit "gemini")) eqn:E2;
    [discriminate|].
  destruct (gostring_eqb (Provider config) (lit "ollama")) eqn:E3;
    [discriminate|].
  intros H; injection H as <-; split; [reflexivity|].
  intros [K | [K | [K | []]]]; symmetry in K;
    apply gostring_eqb_eq in K; congruence.
Qed.

Lemma setHeaders_spec (config : AIConfig) (req : Request) :
  Method (setHeaders config req) = Method req /\
  URL (setHeaders config req) = URL req /\
  Body (setHeaders config req) = Body req /\
  Header (setHeaders config req) =
    (if negb (is_empty (APIKey config))
        && gostring_eqb (Provider config) (lit "openai")
     then [(lit "Authorization", lit "Bearer " ++ APIKey config)] else [])
    ++ (lit "Content-Type", lit "application/json") :: Header req.
Proof.
  unfold setHeaders.
  destruct (negb (is_empty (APIKey config)));
    destruct (gostring_eqb (Provider config) (lit "openai"));
    cbn; repeat split; reflexivity.
Qed.

(** X11. What callAIAPI hands to the HTTP client: at most one request (there
    is no retry); it is a POST of the marshalled payload to the endpoint
    built for the provider, with the JSON content type; it carries an
    Authorization header exactly when the provider is openai and a key is
    set, and that header is the bearer form of the key. *)
Theorem callAIAPI_requests (w : World) (env : Env) (prompt : gostring) :
  let config := getAIConfig env in
  length (fst (callAIAPI w env prompt)) <= 1 /\
  forall req, In req (fst (callAIAPI w env prompt)) ->
    Method req = lit "POST" /\
    (exists payload,
       buildRequest config prompt = inr (payload, URL req) /\
       json_Marshal w payload = inr (Body req)) /\
    In (lit "Content-Type", lit "application/json") (Header req) /\
    forall v, In (lit "Authorization", v) (Header req) <->
              Provider config = lit "openai" /\ APIKey config <> [] /\
              v = lit "Bearer " ++ APIKey config.
Proof.
  intros config; unfold callAIAPI; fold config.
  destruct (buildRequest config prompt) as [e | [payload endpoint]] eqn:Eb;
    cbn [fst]; [split; [cbn; lia | intros req []]|].
  unfold exchange.
  destruct (json_Marshal w payload) as [c | jsonData] eqn:Em;
    cbn [fst]; [split; [cbn; lia | intros req []]|].
  destruct (http_NewRequest_error w (lit "POST") endpoint) as [c|];
    cbn [fst]; [split; [cbn; lia | intros req []]|].
  split; [cbn; lia|].
  intros req [<- | []].
  destruct (setHeaders_spec config
              (mkRequest (lit "POST") endpoint jsonData []))
    as [HM [HU [HB HH]]]; cbn [Method URL Body Header] in *.
  rewrite HM, HU, HB, HH; split; [reflexivity|]; split; [eauto|].
  split; [apply in_or_app; right; left; reflexivity|].
  assert (Hp : Provider config = lit "openai" ->
               gostring_eqb (Provider config) (lit "openai") = true)
    by (intros K; apply gostring_eqb_eq; exact K).
  intros v; destruct (is_empty (APIKey config)) eqn:Ek;
    destruct (gostring_eqb (Provider config) (lit "openai")) eqn:Ep;
    cbn [negb andb app]; split.
  - intros [K | []]; discriminate K.
  - intros [_ [K2 _]]; destruct (APIKey config); [contradiction|discriminate].
  - intros [K | []]; discriminate K.
  - intros [K1 _]; apply Hp in K1; discriminate.
  - intros [K | [K | []]]; [|discriminate K].
    injection K as <-; repeat split.
    + apply gostring_eqb_eq; exact Ep.
    + destruct (APIKey config); discriminate.
  - intros [_ [_ ->]]; left; reflexivity.
  - intros [K | []]; discriminate K.
  - intros [K1 _]; apply Hp in K1; discriminate.
Qed.

Lemma decodeResponse_not_before_send (w : World) (provider : gostring)
  (statusCode : Z) (body : gostring) (e : CallError) :
  decodeResponse w provider statusCode body = inl e -> before_send e = false.
Proof.
  unfold decodeResponse.
  destruct (statusCode >=? 400)%Z;
    [intros H; injection H as <-; reflexivity|].
  destruct (gostring_eqb provider (lit "openai")).
  { destruct (Unmarshal_OpenAI w body) as [c | r]; cbn [wrap bind].
    - intros H; injection H as <-; reflexivity.
    - destruct (Choices r); discriminate. }
  destruct (gostring_eqb provider (lit "gemini")).
  { destruct (Unmarshal_Gemini w body) as [c | r]; cbn [wrap bind].
    - intros H; injection H as <-; reflexivity.
    - destruct (Candidates r) as [|cand ?]; [discriminate|].
      destruct (Content_Parts cand); discriminate. }
  destruct (gostring_eqb provider (lit "ollama")); [|discriminate].
  destruct (Unmarshal_Ollama w body) as [c | r]; cbn [wrap bind].
  - intros H; injection H as <-; reflexivity.
  - discriminate.
Qed.

(** X12. No request is handed to the client exactly when the call ends in one
    of the three errors that precede the exchange (unsupported provider,
    payload not serialized, request not created); in every other outcome
    exactly one request was made. *)
Theorem callAIAPI_sent_or_not (w : World) (env : Env) (prompt : gostring) :
  (fst (callAIAPI w env prompt) = [] <->
   exists e, snd (callAIAPI w env prompt) = inl e /\ before_send e = true)
  /\ (fst (callAIAPI w env prompt) <> [] ->
      length (fst (callAIAPI w env prompt)) = 1).
Proof.
  unfold callAIAPI.
  destruct (buildRequest (getAIConfig env) prompt)
    as [e | [payload endpoint]] eqn:Eb; cbn [fst snd].
  { apply buildRequest_error in Eb as [-> _].
    split; [split; [eauto | reflexivity] | congruence]. }
  unfold exchange.
  destruct (json_Marshal w payload) as [c | jsonData]; cbn [fst snd].
  { split; [split; [eauto | reflexivity] | congruence]. }
  destruct (http_NewRequest_error w (lit "POST") endpoint) as [c|];
    cbn [fst snd].
  { split; [split; [eauto | reflexivity] | congruence]. }
  split; [|reflexivity].
  split; [discriminate|].
  intros [e [H B]]; exfalso.
  destruct (client_Do w _) as [c | resp]; cbn [wrap bind] in H.
  { injection H as <-; discriminate B. }
  destruct (ReadAll resp) as [c | body]; cbn [wrap bind] in H.
  { injection H as <-; discriminate B. }
  apply decodeResponse_not_before_send in H; congruence.
Qed.

(** X13. The unsupported-provider error is returned exactly when AI_PROVIDER
    is set to a non-empty value that is none of the three providers, and
    it carries that value. *)
Theorem unsupported_provider_iff (w : World) (env : Env)
  (prompt p : gostring) :
  snd (callAIAPI w env prompt) = inl (UnsupportedProvider p) <->
  env (lit "AI_PROVIDER") = Some p /\ p <> [] /\ ~ supported p.
Proof.
  split.
  - intros H.
    assert (B : buildRequest (getAIConfig env) prompt
                = inl (UnsupportedProvider p)).
    { unfold callAIAPI in H.
      destruct (buildRequest (getAIConfig env) prompt)
        as [e | [payload endpoint]] eqn:Eb; cbn [snd] in H;
        [congruence|exfalso].
      unfold exchange in H.
      destruct (json_Marshal w payload); cbn [snd] in H; [discriminate|].
      destruct (http_NewRequest_error w _ _); cbn [snd] in H;
        [discriminate|].
      destruct (client_Do w _) as [c | resp]; cbn [wrap bind] in H;
        [discriminate|].
      destruct (ReadAll resp) as [c | body]; cbn [wrap bind] in H;
        [discriminate|].
      apply decodeResponse_not_before_send in H; discriminate. }
    apply buildRequest_error in B as [E Hs]; injection E as ->.
    destruct (getAIConfig_cases env) as [HP _]; cbn zeta in HP.
    rewrite HP in Hs |- *; unfold getEnvOrDefault, os_Getenv in *.
    destruct (env (lit "AI_PROVIDER")) as [[|c v]|]; cbn in *.
    + exfalso; apply Hs; right; right; left; reflexivity.
    + repeat split; [discriminate | exact Hs].
    + exfalso; apply Hs; right; right; left; reflexivity.
  - intros [E [Hne Hs]].
    assert (C : getAIConfig env = mkAIConfig p [] [] []).
    { unfold getAIConfig.
      rewrite (getEnvOrDefault_set env _ p _ E Hne); cbn [Provider].
      rewrite !gostring_eqb_neq; [reflexivity | | |];
        intros ->; apply Hs; unfold supported; cbn; auto. }
    unfold callAIAPI; rewrite C; unfold buildRequest; cbn [Provider].
    rewrite !gostring_eqb_neq; [reflexivity | | |];
      intros ->; apply Hs; unfold supported; cbn; auto.
Qed.

(** ** The API key *)

Lemma getenv_setenv_other (env : Env) (key value k d : gostring) :
  k <> key ->
  getEnvOrDefault (setenv key value env) k d = getEnvOrDefault env k d.
Proof.
  intros H; unfold getEnvOrDefault, os_Getenv, setenv.
  rewrite (gostring_eqb_neq k key H); reflexivity.
Qed.

(** X14. With a provider other than openai and gemini (ollama, the default,
    in particular) the value of AI_API_KEY has no influence on the call:
    the same requests are made and the same result is returned whatever
    the key is, so the key is sent nowhere. *)
Theorem api_key_unused (w : World) (env : Env) (prompt key : gostring) :
  Provider (getAIConfig env) <> lit "openai" ->
  Provider (getAIConfig env) <> lit "gemini" ->
  callAIAPI w (setenv (lit "AI_API_KEY") key env) prompt
  = callAIAPI w env prompt.
Proof.
  intros H1 H2.
  assert (C : getAIConfig (setenv (lit "AI_API_KEY") key env)
              = getAIConfig env).
  { destruct (getAIConfig_cases env) as [HP _]; cbn zeta in HP.
    rewrite HP in H1, H2.
    unfold getAIConfig.
    rewrite !(getenv_setenv_other env (lit "AI_API_KEY") key)
      by discriminate.
    cbn [Provider].
    rewrite (gostring_eqb_neq _ _ H1), (gostring_eqb_neq _ _ H2).
    reflexivity. }
  unfold callAIAPI; rewrite C; reflexivity.
Qed.

Lemma api_key_unused_witness :
  callAIAPI (sampleWorld 200)
    (setenv (lit "AI_API_KEY") (lit "sk-secret") (env_of []))
    (lit "listar archivos")
  = callAIAPI (sampleWorld 200) (env_of []) (lit "listar archivos").
Proof.
  apply (api_key_unused (sampleWorld 200) (env_of [])
           (lit "listar archivos") (lit "sk-secret"));
    vm_compute; discriminate.
Defined.

Lemma getAIConfig_key (env : Env) :
  APIKey (getAIConfig env) =
  if needs_key (Provider (getAIConfig env))
  then os_Getenv env (lit "AI_API_KEY") else [].
Proof.
  unfold getAIConfig, needs_key.
  set (provider := getEnvOrDefault env (lit "AI_PROVIDER") (lit "ollama")).
  cbn [Provider].
  destruct (gostring_eqb provider (lit "openai")) eqn:E1;
    cbn [Provider APIKey]; [rewrite E1; reflexivity|].
  destruct (gostring_eqb provider (lit "gemini")) eqn:E2;
    cbn [Provider APIKey]; [rewrite E1, E2; reflexivity|].
  destruct (gostring_eqb provider (lit "ollama")) eqn:E3;
    cbn [Provider APIKey]; rewrite E1, E2; reflexivity.
Qed.

(** X15. checkAPIKey and getAIConfig resolve the provider and the key with
    code of their own; they agree: the warning is shown exactly when the
    resolved provider is openai or gemini and the resolved key is empty,
    and it names the resolved provider. *)
Theorem checkAPIKey_agrees (ms : Shell.MiniShell) (env : Env) :
  Shell.checkAPIKey ms env =
  if needs_key (Provider (getAIConfig env))
     && is_empty (APIKey (getAIConfig env))
  then [Shell.KeyWarning (Provider (getAIConfig env))] else [].
Proof.
  rewrite getAIConfig_key.
  destruct (getAIConfig_cases env) as [HP _]; cbn zeta in HP; rewrite HP.
  unfold Shell.checkAPIKey, getEnvOrDefault, needs_key.
  destruct (os_Getenv env (lit "AI_PROVIDER")) as [|c p];
    cbn [is_empty negb]; [reflexivity|].
  destruct (gostring_eqb (c :: p) (lit "openai")
            || gostring_eqb (c :: p) (lit "gemini")); reflexivity.
Qed.

(** ** Decoding and the orchestrator *)

(** X16. A well-formed response that holds no text (no choice for openai, no
    candidate or a first candidate without parts for gemini) is not an
    error and no index is taken out of range: the decoded text is
    empty. *)
Theorem decodeResponse_no_text (w : World) (provider : gostring)
  (statusCode : Z) (body : gostring) :
  (statusCode < 400)%Z ->
  (provider = lit "openai" /\
   exists r, Unmarshal_OpenAI w body = inr r /\ Choices r = [])
  \/
  (provider = lit "gemini" /\
   exists r, Unmarshal_Gemini w body = inr r /\
     (Candidates r = [] \/
      exists cand more, Candidates r = cand :: more
                        /\ Content_Parts cand = [])) ->
  decodeResponse w provider statusCode body = inr [].
Proof.
  intros Hs H; unfold decodeResponse.
  assert (E : (statusCode >=? 400)%Z = false)
    by (rewrite Z.geb_leb; apply Z.leb_gt; exact Hs).
  rewrite E.
  destruct H as [[-> [r [Hr Hc]]] | [-> [r [Hr Hc]]]].
  - cbn; rewrite Hr; cbn [wrap bind]; rewrite Hc; reflexivity.
  - cbn; rewrite Hr; cbn [wrap bind].
    destruct Hc as [-> | [cand [more [-> ->]]]]; reflexivity.
Qed.

Lemma decodeResponse_no_text_witness :
  decodeResponse
    {| json_Marshal := json_Marshal (sampleWorld 200);
       http_NewRequest_error := http_NewRequest_error (sampleWorld 200);
       client_Do := client_Do (sampleWorld 200);
       Unmarshal_OpenAI := fun _ => inr {| Choices := [] |};
       Unmarshal_Gemini := Unmarshal_Gemini (sampleWorld 200);
       Unmarshal_Ollama := Unmarshal_Ollama (sampleWorld 200) |}
    (lit "openai") 200 (lit "{}") = inr [].
Proof.
  apply decodeResponse_no_text; [lia|].
  left; split; [reflexivity|].
  exists {| Choices := [] |}; split; reflexivity.
Defined.

Lemma sanitizeCommand_trimmed (raw : gostring) :
  no_outer_space (sanitizeCommand raw).
Proof.
  rewrite sanitizeCommand_unfold.
  destruct (FindStringSubmatch_cases backtickRegex (Strings.TrimSpace raw))
    as [E | [whole [g E]]]; rewrite E;
    [|apply getFirstNonEmptyLine_no_outer_space].
  destruct (FindStringSubmatch_cases inlineRegex (Strings.TrimSpace raw))
    as [E' | [whole [g E']]]; rewrite E';
    [|apply TrimSpace_no_outer_space].
  destruct (firstCandidate raw).
  - apply TrimSpace_no_outer_space.
  - apply getFirstNonEmptyLine_no_outer_space.
Qed.


(** X17. When TranslateToCommand reports no error, the provider answered, the
    answer is not blank, and the command is the sanitized answer: not
    empty, without white space at either end, and a contiguous piece of
    the answer. *)
Theorem TranslateToCommand_success (w : World) (env : Env)
  (userText raw cmd : gostring) :
  TranslateToCommand w env userText = (raw, cmd, None) ->
  snd (callAIAPI w env userText) = inr raw /\
  cmd = sanitizeCommand raw /\ cmd <> [] /\
  no_outer_space cmd /\ infix_of cmd raw /\ blank raw = false.
Proof.
  unfold TranslateToCommand.
  destruct (snd (callAIAPI w env userText)) as [e | rawResponse];
    [discriminate|].
  destruct (sanitizeCommand rawResponse) as [|c r] eqn:E; cbn [is_empty];
    [discriminate|].
  intros H; injection H as <- <-.
  split; [reflexivity|]; split; [symmetry; exact E|].
  split; [discriminate|]; rewrite <- E.
  split; [apply sanitizeCommand_trimmed|].
  split; [eapply infix_of_trans;
            [apply sanitizeCommand_piece | apply TrimSpace_infix]|].
  destruct (blank rawResponse) eqn:B; [|reflexivity].
  rewrite (sanitize_blank _ B) in E; discriminate.
Qed.

Lemma TranslateToCommand_success_witness :
  let cmd := lit "ls -la" in
  snd (callAIAPI (sampleWorld 200) (env_of []) (lit "listar archivos"))
    = inr (lit "ls -la") /\
  cmd = sanitizeCommand (lit "ls -la") /\ cmd <> [] /\
  no_outer_space cmd /\ infix_of cmd (lit "ls -la") /\
  blank (lit "ls -la") = false.
Proof.
  apply (TranslateToCommand_success (sampleWorld 200) (env_of [])
           (lit "listar archivos") (lit "ls -la") (lit "ls -la")).
  reflexivity.
Defined.

(** X18. When the provider answers with a blank text (the empty text
    included), TranslateToCommand returns that text, no command, and the
    no-command error. *)
Theorem TranslateToCommand_blank_answer (w : World) (env : Env)
  (userText raw : gostring) :
  snd (callAIAPI w env userText) = inr raw -> blank raw = true ->
  TranslateToCommand w env userText = (raw, [], Some NoCommandExtracted).
Proof.
  intros H B; unfold TranslateToCommand.
  rewrite H, (sanitize_blank raw B); reflexivity.
Qed.

Lemma TranslateToCommand_blank_answer_witness :
  let w :=
    {| json_Marshal := json_Marshal (sampleWorld 200);
       http_NewRequest_error := http_NewRequest_error (sampleWorld 200);
       client_Do := client_Do (sampleWorld 200);
       Unmarshal_OpenAI := Unmarshal_OpenAI (sampleWorld 200);
       Unmarshal_Gemini := Unmarshal_Gemini (sampleWorld 200);
       Unmarshal_Ollama := fun _ => inr {| Response := lit " \n" |} |} in
  TranslateToCommand w (env_of []) (lit "listar archivos")
  = (lit " \n", [], Some NoCommandExtracted).
Proof.
  intros w.
  apply (TranslateToCommand_blank_answer w (env_of [])
           (lit "listar archivos") (lit " \n")); reflexivity.
Defined.

(** ** The shell *)





Lemma shouldExit_TrimSpace (ms : Shell.MiniShell) (s : gostring) :
  Shell.shouldExit ms (Strings.TrimSpace s) = Shell.shouldExit ms s.
Proof. unfold Shell.shouldExit; rewrite TrimSpace_idempotent; reflexivity. Qed.

Lemma shouldExit_nonempty (ms : Shell.MiniShell) (s : gostring) :
  Shell.shouldExit ms s = true -> Strings.TrimSpace s <> [].
Proof.
  unfold Shell.shouldExit; intros H E; rewrite E in H; discriminate H.
Qed.



(** X20. Whenever a turn of the loop prints a command, it prints the raw
    answer just before it: the test [rawResponse != ""] never fails
    there, since an empty answer yields no command.  The turn printed
    the prompt, the answer and the command, and the loop goes on. *)
Theorem iteration_command (w : World) (env : Env) (ms : Shell.MiniShell)
  (read : Result gostring gostring) (out : list Shell.Output)
  (requests : list Request) (flow : Shell.Flow) (cmd : gostring) :
  Shell.iteration w env ms read = (out, requests, flow) ->
  In (Shell.Command cmd) out ->
  exists line raw,
    read = inr line /\
    TranslateToCommand w env (Strings.TrimSpace line) = (raw, cmd, None) /\
    raw <> [] /\
    out = [Shell.Prompt (Shell.displayPrompt ms); Shell.RawAnswer raw;
           Shell.Command cmd] /\
    flow = Shell.Continue.
Proof.
  unfold Shell.iteration; destruct read as [e | line].
  { intros H; injection H as <- _ _.
    intros [K | [K | []]]; discriminate K. }
  destruct (is_empty (Strings.TrimSpace line)).
  { intros H; injection H as <- _ _; intros [K | []]; discriminate K. }
  destruct (Shell.shouldExit ms (Strings.TrimSpace line)).
  { intros H; injection H as <- _ _.
    intros [K | [K | []]]; discriminate K. }
  destruct (TranslateToCommand w env (Strings.TrimSpace line))
    as [[raw c] [err|]] eqn:ET.
  { intros H; injection H as <- _ _.
    intros [K | [K | []]]; discriminate K. }
  assert (Hraw : raw <> []).
  { intros K; subst raw; unfold TranslateToCommand in ET.
    destruct (snd (callAIAPI w env (Strings.TrimSpace line)))
      as [e | r]; [discriminate|].
    destruct (is_empty (sanitizeCommand r)) eqn:Es; [discriminate|].
    injection ET as E1 _; subst r; discriminate Es. }
  destruct raw as [|x raw]; [contradiction|]; cbn [is_empty negb app].
  intros H; injection H as <- _ <-.
  intros [K | [K | [K | []]]]; try discriminate K.
  injection K as ->.
  exists line, (x :: raw); repeat split; assumption.
Qed.

Lemma iteration_command_witness :
  exists line raw,
    @inr gostring gostring (lit "listar archivos\n") = inr line /\
    TranslateToCommand (sampleWorld 200) (env_of [])
      (Strings.TrimSpace line) = (raw, lit "ls -la", None) /\
    raw <> [] /\
    [Shell.Prompt (lit "neri> "); Shell.RawAnswer (lit "ls -la");
     Shell.Command (lit "ls -la")]
    = [Shell.Prompt (Shell.displayPrompt Shell.NewMiniShell);
       Shell.RawAnswer raw; Shell.Command (lit "ls -la")] /\
    Shell.Continue = Shell.Continue.
Proof.
  apply (iteration_command (sampleWorld 200) (env_of []) Shell.NewMiniShell
           (inr (lit "listar archivos\n"))
           [Shell.Prompt (lit "neri> "); Shell.RawAnswer (lit "ls -la");
            Shell.Command (lit "ls -la")]
           (fst (callAIAPI (sampleWorld 200) (env_of [])
                   (lit "listar archivos")))
           Shell.Continue (lit "ls -la")).
  - reflexivity.
  - right; right; left; reflexivity.
Defined.

(** ** Sessions *)

Lemma iteration_error (w : World) (env : Env) (ms : Shell.MiniShell)
  (e : gostring) :
  Shell.iteration w env ms (inl e)
  = ([Shell.Prompt (Shell.displayPrompt ms); Shell.ReadFailure e], [],
     Shell.Continue).
Proof. reflexivity. Qed.

Lemma iteration_blank (w : World) (env : Env) (ms : Shell.MiniShell)
  (line : gostring) :
  blank line = true ->
  Shell.iteration w env ms (inr line)
  = ([Shell.Prompt (Shell.displayPrompt ms)], [], Shell.Continue).
Proof.
  intros B; unfold Shell.iteration; rewrite (TrimSpace_blank line B).
  reflexivity.
Qed.

Lemma iteration_exit (w : World) (env : Env) (ms : Shell.MiniShell)
  (line : gostring) :
  Shell.shouldExit ms line = true ->
  Shell.iteration w env ms (inr line)
  = ([Shell.Prompt (Shell.displayPrompt ms); Shell.Leaving], [],
     Shell.Break).
Proof.
  intros H; unfold Shell.iteration.
  pose proof (shouldExit_nonempty ms line H) as Hne.
  destruct (Strings.TrimSpace line) as [|c r] eqn:E; [contradiction|].
  cbn [is_empty]; rewrite <- E, shouldExit_TrimSpace, H; reflexivity.
Qed.

Lemma iteration_forward (w : World) (env : Env) (ms : Shell.MiniShell)
  (line : gostring) :
  Strings.TrimSpace line <> [] ->
  Shell.shouldExit ms (Strings.TrimSpace line) = false ->
  exists out,
    Shell.iteration w env ms (inr line)
    = (out, fst (callAIAPI w env (Strings.TrimSpace line)), Shell.Continue).
Proof.
  intros Hne Hx; unfold Shell.iteration.
  destruct (Strings.TrimSpace line) as [|c r] eqn:E; [contradiction|].
  cbn [is_empty]; rewrite Hx.
  destruct (TranslateToCommand w env (c :: r)) as [[raw cmd] [err|]];
    eauto.
Qed.

(** X21. Read errors and blank lines keep the loop turning without a call to
    the provider: after any number of them no request was made and the
    loop has not been left.  (At the end of the input every read fails,
    so the loop never ends by itself.) *)
Theorem loop_idle (w : World) (env : Env) (ms : Shell.MiniShell)
  (reads : list (Result gostring gostring)) :
  Shell.running ms = true ->
  (forall read, In read reads ->
     (exists e, read = inl e) \/
     (exists line, read = inr line /\ blank line = true)) ->
  snd (fst (Shell.loop w env ms reads)) = [] /\
  snd (Shell.loop w env ms reads) = false.
Proof.
  intros Hr; induction reads as [|read more IH]; intros H;
    cbn [Shell.loop]; rewrite Hr; [split; reflexivity|].
  destruct IH as [IH1 IH2]; [intros r Hin; apply H; right; exact Hin|].
  destruct (H read (or_introl eq_refl)) as [[e ->] | [line [-> B]]].
  - rewrite iteration_error.
    destruct (Shell.loop w env ms more) as [[o r] d]; cbn in *.
    subst; split; reflexivity.
  - rewrite (iteration_blank w env ms line B).
    destruct (Shell.loop w env ms more) as [[o r] d]; cbn in *.
    subst; split; reflexivity.
Qed.

Lemma loop_idle_witness :
  snd (fst (Shell.loop (sampleWorld 200) (env_of []) Shell.NewMiniShell
              [inl (lit "EOF"); inr (lit "  \n"); inl (lit "EOF")])) = [] /\
  snd (Shell.loop (sampleWorld 200) (env_of []) Shell.NewMiniShell
         [inl (lit "EOF"); inr (lit "  \n"); inl (lit "EOF")]) = false.
Proof.
  apply (loop_idle (sampleWorld 200) (env_of []) Shell.NewMiniShell
           [inl (lit "EOF"); inr (lit "  \n"); inl (lit "EOF")]);
    [reflexivity|].
  intros read [<- | [<- | [<- | []]]].
  - left; eexists; reflexivity.
  - right; eexists; split; reflexivity.
  - left; eexists; reflexivity.
Defined.

Lemma loop_stops_at_exit (w : World) (env : Env) (ms : Shell.MiniShell)
  (pre post : list (Result gostring gostring)) (line : gostring) :
  Shell.shouldExit ms line = true ->
  Shell.loop w env ms (pre ++ inr line :: post)
  = Shell.loop w env ms (pre ++ [inr line]) /\
  snd (Shell.loop w env ms (pre ++ [inr line])) = true.
Proof.
  intros H; induction pre as [|read pre [IH1 IH2]]; cbn [app Shell.loop].
  - destruct (Shell.running ms); [|split; reflexivity].
    rewrite (iteration_exit w env ms line H); split; reflexivity.
  - destruct (Shell.running ms); [|split; reflexivity].
    destruct (Shell.iteration w env ms read) as [[o r] [|]];
      [|split; reflexivity].
    rewrite IH1.
    destruct (Shell.loop w env ms (pre ++ [inr line])) as [[o' r'] d].
    cbn in *; subst; split; reflexivity.
Qed.

(** X22. Once a line is an exit word nothing that follows it matters: the
    session prints and sends the same as if the input ended there, the
    loop is left and the farewell is printed. *)
Theorem run_stops_at_exit (w : World) (env : Env) (ms : Shell.MiniShell)
  (pre post : list (Result gostring gostring)) (line : gostring) :
  Shell.shouldExit ms line = true ->
  Shell.run w env ms (pre ++ inr line :: post)
  = Shell.run w env ms (pre ++ [inr line]) /\
  snd (Shell.run w env ms (pre ++ [inr line])) = true /\
  In Shell.Farewell (fst (fst (Shell.run w env ms (pre ++ [inr line])))).
Proof.
  intros H; destruct (loop_stops_at_exit w env ms pre post line H) as [E D].
  unfold Shell.run; rewrite E.
  destruct (Shell.loop w env ms (pre ++ [inr line])) as [[o r] d].
  cbn [snd] in D; subst d; cbn [fst snd].
  split; [reflexivity|]; split; [reflexivity|].
  apply in_or_app; right; apply in_or_app; right.
  apply in_or_app; right; left; reflexivity.
Qed.

Lemma run_stops_at_exit_witness :
  Shell.run (sampleWorld 200) (env_of []) Shell.NewMiniShell
    ([inr (lit "listar archivos\n")] ++ inr (lit "EXIT\n")
       :: [inr (lit "borrar todo\n")])
  = Shell.run (sampleWorld 200) (env_of []) Shell.NewMiniShell
      ([inr (lit "listar archivos\n")] ++ [inr (lit "EXIT\n")]).
Proof.
  assert (H : Shell.shouldExit Shell.NewMiniShell (lit "EXIT\n") = true)
    by (vm_compute; reflexivity).
  exact (proj1 (run_stops_at_exit (sampleWorld 200) (env_of [])
                  Shell.NewMiniShell
                  [inr (lit "listar archivos\n")]
                  [inr (lit "borrar todo\n")]
                  (lit "EXIT\n") H)).
Defined.

(** X23. What a session sends to the provider: the requests of one call of
    callAIAPI for each line read that, once trimmed, is neither empty nor
    an exit word, in the order read and up to the first exit word; the
    text sent is the trimmed line.  Nothing is sent for any other
    input. *)
Theorem run_requests (w : World) (env : Env) (ms : Shell.MiniShell)
  (reads : list (Result gostring gostring)) :
  Shell.running ms = true ->
  snd (fst (Shell.run w env ms reads))
  = flat_map (fun userInput => fst (callAIAPI w env userInput))
      (forwarded ms reads).
Proof.
  intros Hr.
  assert (L : snd (fst (Shell.loop w env ms reads))
              = flat_map (fun userInput => fst (callAIAPI w env userInput))
                  (forwarded ms reads)).
  { induction reads as [|read more IH]; cbn [Shell.loop forwarded];
      rewrite Hr; [reflexivity|].
    destruct read as [e | line].
    - rewrite iteration_error.
      destruct (Shell.loop w env ms more) as [[o r] d]; exact IH.
    - destruct (Strings.TrimSpace line) as [|c u] eqn:E.
      + rewrite iteration_blank by (apply TrimSpace_nil_blank; exact E).
        destruct (Shell.loop w env ms more) as [[o r] d]; exact IH.
      + cbn [is_empty].
        destruct (Shell.shouldExit ms (c :: u)) eqn:Ex.
        * rewrite iteration_exit; [reflexivity|].
          rewrite <- shouldExit_TrimSpace, E; exact Ex.
        * destruct (iteration_forward w env ms line) as [out Ei].
          { rewrite E; discriminate. }
          { rewrite E; exact Ex. }
          rewrite Ei, E.
          destruct (Shell.loop w env ms more) as [[o r] d].
          cbn [fst snd flat_map] in *; rewrite IH; reflexivity. }
  unfold Shell.run.
  destruct (Shell.loop w env ms reads) as [[o r] d]; exact L.
Qed.

Lemma run_requests_witness :
  snd (fst (Shell.run (sampleWorld 200) (env_of []) Shell.NewMiniShell
              [inr (lit "\n"); inr (lit "  listar archivos \n");
               inr (lit "quit\n"); inr (lit "otra cosa\n")]))
  = flat_map
      (fun userInput =>
         fst (callAIAPI (sampleWorld 200) (env_of []) userInput))
      (forwarded Shell.NewMiniShell
         [inr (lit "\n"); inr (lit "  listar archivos \n");
          inr (lit "quit\n"); inr (lit "otra cosa\n")])
  /\ forwarded Shell.NewMiniShell
       [inr (lit "\n"); inr (lit "  listar archivos \n");
        inr (lit "quit\n"); inr (lit "otra cosa\n")]
     = [lit "listar archivos"].
Proof.
  split; [|vm_compute; reflexivity].
  exact (run_requests (sampleWorld 200) (env_of []) Shell.NewMiniShell
           [inr (lit "\n"); inr (lit "  listar archivos \n");
            inr (lit "quit\n"); inr (lit "otra cosa\n")] eq_refl).
Defined.

Lemma sanitize_fence_at_start_witness :
  sanitizeCommand
    (lit "```" ++ lit "sh" ++ nl :: lit " ls -la " ++ nl :: lit "```"
       ++ lit "\nEsto usa `ls`.")
  = lit "ls -la".
Proof.
  apply (sanitize_fence_at_start (lit "sh") (lit " ls -la ")
           (lit "\nEsto usa `ls`.")).
  - right; right; left; reflexivity.
  - vm_compute; intros K;
      repeat (destruct K as [K|K]; [discriminate|]); exact K.
  - vm_compute; intros K;
      repeat (destruct K as [K|K]; [discriminate|]); exact K.
Defined.
